(** * FortiMeet backend: meeting invitations over a document store

    A shallow embedding of [src/main.py]: the three mutating handlers
    [create_meeting], [join_meeting] and [end_meeting], written in a small
    state-and-exception monad over a world that holds the document
    database, the wall clock and the [ObjectId] generator. *)

From Stdlib Require Import ZArith NArith Strings.String Strings.Ascii Strings.HexString.
From stdpp Require Import base option list gmap strings fin_maps.

Local Open Scope Z_scope.
Local Open Scope string_scope.

(** ** Values held by the fields of a stored document

    The Python values a meeting document holds: what the [Meeting] schema
    writes (text, timestamps, a list of addresses) together with the scalars
    that make a field falsy.  A [datetime] is the number of microseconds
    since the epoch; a sum that leaves the years 1 to 9999 raises
    [OverflowError] ([datetime_add]). *)

Inductive value :=
  | VNone
  | VBool (b : bool)
  | VInt (n : Z)
  | VStr (s : string)
  | VDatetime (t : Z)
  | VList (l : list string).

#[global] Instance value_eq_dec : EqDecision value.
Proof. solve_decision. Defined.

(** Python truth value of an object, as tested by [if x and ...]. *)
Definition truthy (v : value) : bool :=
  match v with
  | VNone => false
  | VBool b => b
  | VInt n => negb (Z.eqb n 0)
  | VStr s => negb (String.eqb s "")
  | VDatetime _ => true
  | VList l => negb (bool_decide (l = []))
  end.

(** A stored document: the primary key MongoDB keeps for it, an [ObjectId]
    (no handler ever supplies a key of its own), and the fields. *)
Record document := Document {
  _id : N;
  fields : gmap string value
}.

(** [meeting.get(key)]: [None] when the key is absent. *)
Definition dict_get (d : document) (key : string) : value :=
  default VNone (fields d !! key).

(** ** The world the handlers run in *)

Record world := World {
  db : gmap string (list document);
  oid_counter : N;
  clock : nat → Z;
  clock_reads : nat
}.

Inductive exn :=
  | HTTPException (status_code : Z) (detail : string)
  | TypeError
  | OverflowError.

Inductive outcome (A : Type) :=
  | Return (a : A)
  | Raise (e : exn).
Arguments Return {A} a.
Arguments Raise {A} e.

(** State and exceptions: what a handler wrote before it raised stays
    written. *)
Definition M (A : Type) : Type := world → outcome A * world.

#[global] Instance M_ret : MRet M := λ A a w, (Return a, w).
#[global] Instance M_bind : MBind M := λ A B f m w,
  match m w with
  | (Return a, w') => f a w'
  | (Raise e, w') => (Raise e, w')
  end.

Definition raise {A} (e : exn) : M A := λ w, (Raise e, w).

(** [datetime.now(timezone.utc)]: the next reading of the clock. *)
Definition now : M Z := λ w,
  (Return (clock w (clock_reads w)),
   World (db w) (oid_counter w) (clock w) (S (clock_reads w))).

(** [ObjectId()]: bson hands out identifiers that never repeat. *)
Definition ObjectId : M N := λ w,
  (Return (oid_counter w),
   World (db w) (oid_counter w + 1)%N (clock w) (clock_reads w)).

(** [str(ObjectId)]: the hexadecimal text of the identifier. *)
Definition ObjectId_str (o : N) : string := HexString.of_N o.

(** [timedelta(minutes=m)], in microseconds. *)
Definition timedelta_minutes (m : Z) : Z := m * 60000000.

(** A [timedelta] holds between -999999999 and 999999999 whole days,
    rounded down; building one outside of that raises [OverflowError]. *)
Definition timedelta_in_range (m : Z) : bool :=
  bool_decide (-999999999 ≤ m `div` 1440 ≤ 999999999)%Z.

Definition timedelta (minutes : Z) : M Z :=
  if timedelta_in_range minutes then mret (timedelta_minutes minutes)
  else raise OverflowError.

(** The first and the last instant a [datetime] can hold: the start of
    year 1 and the last microsecond of year 9999, counted from the epoch. *)
Definition datetime_min : Z := -62135596800000000.
Definition datetime_max : Z := 253402300799999999.

(** [t + d] raises [OverflowError] when the sum leaves that range.  A
    reading of the clock lies within the range, so the sum can leave it
    only on the side the duration points to, and the test is written so;
    for a reading within the range it is the test of the sum against the
    two bounds ([datetime_overflows_spec]). *)
Definition datetime_overflows (t d : Z) : bool :=
  bool_decide (0 < d ∧ datetime_max < t + d)%Z ||
  bool_decide (d < 0 ∧ t + d < datetime_min)%Z.

Definition datetime_add (t d : Z) : M Z :=
  if datetime_overflows t d then raise OverflowError else mret (t + d).

(** ** Document store access *)

(** A filter is a conjunction of equalities, on the key or on fields. *)
Inductive criterion :=
  | IdIs (o : N)
  | FieldIs (key : string) (v : value).

Definition satisfies (d : document) (c : criterion) : Prop :=
  match c with
  | IdIs o => _id d = o
  | FieldIs key v => fields d !! key = Some v
  end.

#[global] Instance satisfies_dec d c : Decision (satisfies d c).
Proof. destruct c; simpl; apply _. Defined.

Definition matches (flt : list criterion) (d : document) : Prop :=
  Forall (satisfies d) flt.

#[global] Instance matches_dec flt d : Decision (matches flt d).
Proof. unfold matches. apply _. Defined.

Definition find (flt : list criterion) (limit : option nat)
    (c : list document) : list document :=
  let hits := filter (matches flt) c in
  match limit with
  | Some n => take n hits
  | None => hits
  end.

(** [$set]: the given fields overwrite, the others stay. *)
Definition set_fields (upd : gmap string value) (d : document) : document :=
  Document (_id d) (upd ∪ fields d).

Fixpoint update_first (flt : list criterion) (upd : gmap string value)
    (c : list document) : list document :=
  match c with
  | [] => []
  | d :: c' =>
      if decide (matches flt d) then set_fields upd d :: c'
      else d :: update_first flt upd c'
  end.

Fixpoint delete_first (flt : list criterion) (c : list document)
    : list document :=
  match c with
  | [] => []
  | d :: c' =>
      if decide (matches flt d) then c' else d :: delete_first flt c'
  end.

Definition collection (name : string) (w : world) : list document :=
  default [] (db w !! name).

Definition with_db (f : gmap string (list document) → gmap string (list document))
    (w : world) : world :=
  World (f (db w)) (oid_counter w) (clock w) (clock_reads w).

Definition modify_db (f : gmap string (list document) → gmap string (list document))
    : M unit := λ w, (Return (), with_db f w).

(** [db[name].update_one(filter, {"$set": upd})]: the first match only. *)
Definition update_one (name : string) (flt : list criterion)
    (upd : gmap string value) : M unit :=
  modify_db (alter (update_first flt upd) name).

(** [db[name].delete_one(filter)]: the first match only. *)
Definition delete_one (name : string) (flt : list criterion) : M unit :=
  modify_db (alter (delete_first flt) name).

(** [db[name].insert_one(data)]: the driver draws the key, the document
    goes to the end of the collection. *)
Definition insert_one (name : string) (data : gmap string value) : M N :=
  o ← ObjectId;
  _ ← modify_db (λ m, <[name := (default [] (m !! name) ++ [Document o data])%list]> m);
  mret o.

(** Modelled from the spec: [get_documents] of the absent [database]
    module, the store's query by collection name and filter; the documents
    come in the collection's order, at most [limit] of them. *)
Definition get_documents (name : string) (flt : list criterion)
    (limit : option nat) : M (list document) := λ w,
  (Return (find flt limit (collection name w)), w).

(** Modelled from the spec: [create_document] of the absent [database]
    module; the store assigns the identifier on creation, stamps
    [created_at] and [updated_at], and returns the identifier as text. *)
Definition create_document (name : string) (data : gmap string value)
    : M string :=
  t ← now;
  o ← insert_one name
        (<["created_at" := VDatetime t]> (<["updated_at" := VDatetime t]> data));
  mret (ObjectId_str o).

(** Modelled from the spec: the [Meeting] schema of the absent [schemas]
    module, a flat record of the six fields the handler passes. *)
Definition Meeting (title : option string) (host_email invite_code : string)
    (expires_at : Z) (status : string) (participants : list string)
    : gmap string value :=
  {[ "title" := from_option VStr VNone title;
     "host_email" := VStr host_email;
     "invite_code" := VStr invite_code;
     "expires_at" := VDatetime expires_at;
     "status" := VStr status;
     "participants" := VList participants ]}.

(** ** Requests and responses *)

Record CreateMeetingRequest := {
  host_email : string;
  title : option string;
  ttl_minutes : Z
}.

(** The request body as parsed: [title] and [ttl_minutes] may be left
    out, and then take the defaults [None] and [120]. *)
Definition parse_CreateMeetingRequest (host_email : string)
    (title : option string) (ttl_minutes : option Z) : CreateMeetingRequest :=
  {| host_email := host_email;
     title := title;
     ttl_minutes := default 120 ttl_minutes |}.

Record JoinMeetingRequest := {
  email : string;
  invite_code : string
}.

(** The values of a JSON response.  [JIsoformat t] stands for the text
    [t.isoformat()] of the instant [t]. *)
Inductive json :=
  | JStr (s : string)
  | JBool (b : bool)
  | JIsoformat (t : Z).

#[global] Instance json_eq_dec : EqDecision json.
Proof. solve_decision. Defined.

(** ** The handlers *)

(** A text is held as the bytes of its UTF-8 form.  A character is a
    byte that is not a continuation byte (one of the form [10xxxxxx]),
    together with the continuation bytes that follow it. *)
Definition is_continuation (c : ascii) : bool :=
  Nat.leb 128 (nat_of_ascii c) && Nat.ltb (nat_of_ascii c) 192.

(** The characters of a text, each as a text of its own. *)
Fixpoint chars (s : string) : list string :=
  match s with
  | EmptyString => []
  | String c s' =>
      let rest := chars s' in
      match s', rest with
      | String c' _, g :: gs =>
          if is_continuation c' then String c g :: gs
          else String c EmptyString :: rest
      | _, _ => String c EmptyString :: rest
      end
  end.

(** [len(s)]: the number of characters. *)
Fixpoint code_points (s : string) : nat :=
  match s with
  | EmptyString => 0
  | String c s' =>
      if is_continuation c then code_points s' else S (code_points s')
  end.

(** Iterating over a value: a list yields its items and a text its
    characters; the scalars are not iterable. *)
Definition iterate (v : value) : option (list string) :=
  match v with
  | VList l => Some l
  | VStr s => Some (chars s)
  | _ => None
  end.

(** [set(x)] *)
Definition iter_set (v : value) : M (gset string) :=
  match iterate v with
  | Some l => mret (list_to_set l)
  | None => raise TypeError
  end.

(** [x < t] for a [datetime] [t]: only a [datetime] compares with one. *)
Definition lt_datetime (v : value) (t : Z) : M bool :=
  match v with
  | VDatetime e => mret (bool_decide (e < t))
  | _ => raise TypeError
  end.

(** [POST /api/meetings] ([main.py], lines 59-73). *)
Definition create_meeting (payload : CreateMeetingRequest)
    : M (gmap string json) :=
  t ← now;
  d ← timedelta (ttl_minutes payload);
  expires_at ← datetime_add t d;
  o ← ObjectId;
  let invite_code := ObjectId_str o in
  let data := Meeting (title payload) (host_email payload) invite_code
                expires_at "active" [] in
  meeting_id ← create_document "meeting" data;
  mret ({[ "id" := JStr meeting_id;
           "invite_code" := JStr invite_code;
           "expires_at" := JIsoformat expires_at ]} : gmap string json).

(** [POST /api/meetings/join] ([main.py], lines 75-90).  The order in
    which [list(participants)] lists a set is not fixed by Python; here it
    is the order of [elements], of which only that it lists every member
    once is used. *)
Definition join_meeting (payload : JoinMeetingRequest)
    : M (gmap string json) :=
  docs ← get_documents "meeting"
           [FieldIs "invite_code" (VStr (invite_code payload))] (Some 1%nat);
  match docs with
  | [] => raise (HTTPException 404 "Invite not found")
  | meeting :: _ =>
      if bool_decide (dict_get meeting "status" ≠ VStr "active")
      then raise (HTTPException 400 "Meeting not active")
      else
        expired ← (if truthy (dict_get meeting "expires_at")
                   then t ← now; lt_datetime (dict_get meeting "expires_at") t
                   else mret false);
        if (expired : bool)
        then raise (HTTPException 410 "Invite expired")
        else
          participants ← iter_set (default (VList []) (fields meeting !! "participants"));
          let participants := participants ∪ {[ email payload ]} in
          t ← now;
          _ ← update_one "meeting" [IdIs (_id meeting)]
                {[ "participants" := VList (elements participants);
                   "updated_at" := VDatetime t ]};
          mret ({[ "ok" := JBool true;
                   "meeting_id" := JStr (ObjectId_str (_id meeting)) ]}
                : gmap string json)
  end.

(** [POST /api/meetings/end] ([main.py], lines 92-101): the record is
    marked [ended], then deleted. *)
Definition end_meeting (invite_code : string) : M (gmap string json) :=
  docs ← get_documents "meeting" [FieldIs "invite_code" (VStr invite_code)]
           (Some 1%nat);
  match docs with
  | [] => raise (HTTPException 404 "Meeting not found")
  | meeting :: _ =>
      t ← now;
      _ ← update_one "meeting" [IdIs (_id meeting)]
            {[ "status" := VStr "ended"; "updated_at" := VDatetime t ]};
      _ ← delete_one "meeting" [IdIs (_id meeting)];
      mret ({[ "ok" := JBool true ]} : gmap string json)
  end.

(** ** What the claims speak about *)

(** The meetings on record. *)
Definition meetings (w : world) : list document := collection "meeting" w.

(** The world after one reading of the clock. *)
Definition tick (w : world) : world :=
  World (db w) (oid_counter w) (clock w) (S (clock_reads w)).

(** The reading the next call of [now] returns. *)
Definition time (w : world) : Z := clock w (clock_reads w).

(** The expiry of a request can be computed in a world: neither the
    duration nor its sum with the clock's reading overflows. *)
Definition expiry_computable (p : CreateMeetingRequest) (w : world) : bool :=
  timedelta_in_range (ttl_minutes p) &&
  negb (datetime_overflows (time w) (timedelta_minutes (ttl_minutes p))).

(** The duration is one a [timedelta] holds and the expiry is an instant
    a [datetime] holds. *)
Definition expiry_representable (p : CreateMeetingRequest) (w : world) : Prop :=
  (-999999999 ≤ ttl_minutes p `div` 1440 ≤ 999999999)%Z ∧
  (datetime_min ≤ time w + ttl_minutes p * 60000000 ≤ datetime_max)%Z.

(** The meeting an invite code designates: the first one on record that
    carries it. *)
Definition by_code (code : string) : list criterion :=
  [FieldIs "invite_code" (VStr code)].

Definition lookup_invite (code : string) (w : world) : option document :=
  head (filter (matches (by_code code)) (meetings w)).

(** The document stored under a key. *)
Definition lookup_id (o : N) (w : world) : option document :=
  head (filter (matches [IdIs o]) (meetings w)).

Definition is_active (m : document) : Prop :=
  dict_get m "status" = VStr "active".

(** [expires_at] lies in the past at instant [t]. *)
Definition expired (m : document) (t : Z) : Prop :=
  ∃ e, fields m !! "expires_at" = Some (VDatetime e) ∧ e < t.

(** The [participants] list of a document, when it holds one. *)
Definition participants (m : document) : option (list string) :=
  match fields m !! "participants" with
  | Some (VList l) => Some l
  | _ => None
  end.

Definition not_found_join : exn := HTTPException 404 "Invite not found".
Definition not_active : exn := HTTPException 400 "Meeting not active".
Definition invite_expired : exn := HTTPException 410 "Invite expired".
Definition not_found_end : exn := HTTPException 404 "Meeting not found".

(** The fields a join writes. *)
Definition join_update (who : string) (l : list string) (t : Z)
    : gmap string value :=
  {[ "participants" := VList (elements (list_to_set l ∪ {[ who ]} : gset string));
     "updated_at" := VDatetime t ]}.

Definition join_response (m : document) : gmap string json :=
  {[ "ok" := JBool true; "meeting_id" := JStr (ObjectId_str (_id m)) ]}.

(** The world once the expiry test has let a meeting through: the clock
    was read only if [expires_at] is truthy. *)
Definition past_expiry_test (m : document) (w : world) : world :=
  if truthy (dict_get m "expires_at") then tick w else w.

(** The record a creation writes and the response it gives, in a world
    [w]: the clock is read once by the handler and once by the store, the
    generator is drawn once for the invite code and once for the key. *)
Definition new_meeting (p : CreateMeetingRequest) (w : world) : document :=
  let stamp := VDatetime (clock w (S (clock_reads w))) in
  Document (oid_counter w + 1)
    (<["created_at" := stamp]> (<["updated_at" := stamp]>
       (Meeting (title p) (host_email p) (ObjectId_str (oid_counter w))
          (time w + timedelta_minutes (ttl_minutes p)) "active" []))).

Definition create_response (p : CreateMeetingRequest) (w : world)
    : gmap string json :=
  {[ "id" := JStr (ObjectId_str (oid_counter w + 1));
     "invite_code" := JStr (ObjectId_str (oid_counter w));
     "expires_at" := JIsoformat (time w + timedelta_minutes (ttl_minutes p)) ]}.

(** The fields an end writes before it deletes. *)
Definition end_update (t : Z) : gmap string value :=
  {[ "status" := VStr "ended"; "updated_at" := VDatetime t ]}.

Definition end_response : gmap string json := {[ "ok" := JBool true ]}.

(** How often an address occurs in a list. *)
Definition occurrences (who : string) (l : list string) : nat :=
  length (filter (λ x, x = who) l).


(** ** The service as a transition system *)

Inductive request :=
  | CreateMeeting (payload : CreateMeetingRequest)
  | JoinMeeting (payload : JoinMeetingRequest)
  | EndMeeting (invite_code : string).

Definition handle (r : request) : M (gmap string json) :=
  match r with
  | CreateMeeting payload => create_meeting payload
  | JoinMeeting payload => join_meeting payload
  | EndMeeting invite_code => end_meeting invite_code
  end.

(** The world after a sequence of requests, whatever they answered. *)
Definition handle_all (rs : list request) (w : world) : world :=
  foldl (λ w r, (handle r w).2) w rs.

(** The worlds the service can be in: it starts on an empty database,
    with any clock and any state of the identifier generator, and the
    three handlers are the only writers. *)
Inductive reachable : world → Prop :=
  | reachable_start w : db w = ∅ → reachable w
  | reachable_handle w r : reachable w → reachable (handle r w).2.

(** Keys do not repeat: what MongoDB guarantees of [_id]. *)
Definition unique_ids (w : world) : Prop := NoDup (_id <$> meetings w).

(** What holds of every meeting the handlers have written, with [bound]
    the state of the identifier generator. *)
Record meeting_ok (bound : N) (d : document) : Prop := {
  ok_id : (_id d < bound)%N;
  ok_code : ∃ n, (n < bound)%N ∧
              fields d !! "invite_code" = Some (VStr (ObjectId_str n));
  ok_status : is_active d;
  ok_participants : ∃ l, fields d !! "participants" = Some (VList l) ∧ NoDup l
}.

Record store_ok (w : world) : Prop := {
  ok_meetings : Forall (meeting_ok (oid_counter w)) (meetings w);
  ok_ids : unique_ids w;
  ok_codes : NoDup ((λ d, fields d !! "invite_code") <$> meetings w)
}.

(** An invite code that is on no record and that the generator has
    already handed out. *)
Definition retired (code : string) (w : world) : Prop :=
  lookup_invite code w = None ∧
  ∃ n, (n < oid_counter w)%N ∧ code = ObjectId_str n.

(** A clock that stands still, an empty store, and a request for a
    meeting that lasts no time at all. *)
Definition frozen_world : world := World ∅ 0 (λ _, 1700000000000000) 0.

Definition instant_request : CreateMeetingRequest :=
  {| host_email := "a@x.com"; title := None; ttl_minutes := 0 |}.

(** A request for a meeting that lasts ten billion minutes, some nineteen
    thousand years: the duration is a [timedelta], the expiry is past year
    9999. *)
Definition endless_request : CreateMeetingRequest :=
  {| host_email := "a@x.com"; title := None; ttl_minutes := 10000000000 |}.

(** A clock that moves on by one microsecond at each reading, an empty
    store, and a world in which one meeting, good for an hour, has been
    created: its invite code is the text of identifier 0, its key is 1. *)
Definition ticking_world : world := World ∅ 0 (λ n, Z.of_nat n) 0.

Definition hour_request : CreateMeetingRequest :=
  parse_CreateMeetingRequest "a@x.com" None (Some 60).

Definition open_world : world := (create_meeting hour_request ticking_world).2.

Definition bob : JoinMeetingRequest :=
  {| email := "b@x.com"; invite_code := ObjectId_str 0 |}.

Definition carol : JoinMeetingRequest :=
  {| email := "c@x.com"; invite_code := ObjectId_str 0 |}.

(** The world after a second meeting, one that lasts no time, has been
    created beside it. *)
Definition two_meetings_world : world :=
  handle_all [CreateMeeting hour_request; CreateMeeting instant_request]
    ticking_world.

(** The world after Bob, Carol and Bob again have joined that meeting. *)
Definition busy_world : world :=
  handle_all [JoinMeeting bob; JoinMeeting carol; JoinMeeting bob] open_world.

(** A store the handlers did not write: a meeting marked [ended] and an
    active one whose [expires_at] is [None]. *)
Definition ended_doc : document :=
  Document 7 {[ "invite_code" := VStr "ended-code"; "status" := VStr "ended" ]}.

Definition undated_doc : document :=
  Document 8 {[ "invite_code" := VStr "undated-code";
                "status" := VStr "active";
                "expires_at" := VNone ]}.

Definition foreign_world : world :=
  World {[ "meeting" := [ended_doc; undated_doc] ]} 9 (λ n, Z.of_nat n) 0.



(** A database that holds a second collection beside [meeting]. *)
Definition user_doc : document :=
  Document 3 {[ "email" := VStr "b@x.com"; "name" := VStr "Bob" ]}.

Definition shared_world : world :=
  World {[ "meeting" := [ended_doc; undated_doc]; "user" := [user_doc] ]}
        9 (λ n, Z.of_nat n) 0.

(** ** The diagnostic endpoint

    [GET /test] ([main.py], lines 33-57) looks at the database handle and
    never writes.  What it can observe of the handle: whether there is one
    ([db is not None]), what reading its [name] gives, and what
    [list_collection_names()] gives; either call may raise, and then
    [str(e)] is the message.  A text is taken as the sequence of its
    characters. *)

Inductive attempt (A : Type) :=
  | Got (a : A)
  | Threw (message : string).
Arguments Got {A} a.
Arguments Threw {A} message.

(** [name_attr] is [None] when the handle has no attribute [name], and
    [getattr] then gives its default. *)
Record database_handle := {
  name_attr : attempt (option string);
  list_collection_names : attempt (list string)
}.

(** The values of the diagnostic response. *)
Inductive diag :=
  | DNull
  | DText (s : string)
  | DNames (l : list string).

#[global] Instance diag_eq_dec : EqDecision diag.
Proof. solve_decision. Defined.

(** [s[:n]]: the first [n] characters, each with its continuation
    bytes. *)
Fixpoint first_chars (n : nat) (s : string) : string :=
  match s with
  | EmptyString => EmptyString
  | String c s' =>
      if is_continuation c then String c (first_chars n s')
      else match n with
           | O => EmptyString
           | S n' => String c (first_chars n' s')
           end
  end.

(** A text that is empty or starts with the first byte of a character. *)
Definition starts_char (s : string) : bool :=
  match s with
  | EmptyString => true
  | String c _ => negb (is_continuation c)
  end.

(** The response is one dictionary, written to step by step: what was
    written before an exception stays written. *)
Definition test_database (db : option database_handle) : gmap string diag :=
  let response : gmap string diag :=
    {[ "backend" := DText "✅ Running";
       "database" := DText "❌ Not Available";
       "database_url" := DNull;
       "database_name" := DNull;
       "connection_status" := DText "Not Connected";
       "collections" := DNames [] ]} in
  match db with
  | None => response
  | Some db =>
      let response := <["database" := DText "✅ Available"]> response in
      let response := <["database_url" := DText "✅ Set"]> response in
      match name_attr db with
      | Threw message =>
          <["database" := DText ("❌ Error: " ++ first_chars 50 message)]>
            response
      | Got name =>
          let response :=
            <["database_name" := DText (default "unknown" name)]> response in
          let response :=
            <["connection_status" := DText "Connected"]> response in
          match list_collection_names db with
          | Got collections =>
              let response :=
                <["collections" := DNames (take 10 collections)]> response in
              <["database" := DText "✅ Connected & Working"]> response
          | Threw message =>
              <["database" :=
                  DText ("⚠️ Connected but Error: " ++ first_chars 50 message)]>
                response
          end
      end
  end.

(** A meeting whose [expires_at] holds a [datetime]. *)
Definition meeting_dated (d : document) : Prop :=
  ∃ e, fields d !! "expires_at" = Some (VDatetime e).

(** A handle whose listing fails with a message of 65 characters in 70
    bytes. *)
Definition refused : string :=
  "connexion refusée par le serveur de données à l’adresse 127.0.0.1".

Definition refusing_handle : database_handle :=
  {| name_attr := Got (Some "fortimeet");
     list_collection_names := Threw refused |}.

(** A meeting whose [expires_at] is a number. *)
Definition misdated_doc : document :=
  Document 3 {[ "invite_code" := VStr "misdated-code";
                "status" := VStr "active";
                "expires_at" := VInt 5 ]}.

Definition misdated_world : world :=
  World {[ "meeting" := [misdated_doc] ]} 4 (λ n, Z.of_nat n) 0.

#[local] Arguments find : simpl never.
#[local] Arguments collection : simpl never.

Ltac run :=
  unfold mbind, M_bind, mret, M_ret, raise, get_documents, update_one,
    delete_one, modify_db, now, iter_set, lt_datetime; simpl.

Ltac run_create :=
  unfold create_meeting, timedelta, datetime_add, now;
  unfold mbind, M_bind, mret, M_ret, raise.

(** ** The store primitives *)

Lemma find_one flt c :
  find flt (Some 1%nat) c = option_list (head (filter (matches flt) c)).
Proof.
  unfold find. destruct (filter (matches flt) c) as [|d hits]; [done|].
  simpl. by rewrite take_0.
Qed.

Lemma collection_alter f name w :
  f [] = [] →
  collection name (with_db (alter f name) w) = f (collection name w).
Proof.
  intros Hf. unfold collection, with_db. simpl. rewrite lookup_alter_eq.
  by destruct (db w !! name).
Qed.

Lemma head_filter_None {A} (P : A → Prop) `{!∀ x, Decision (P x)} (l : list A) :
  head (filter P l) = None ↔ Forall (λ x, ¬ P x) l.
Proof.
  induction l as [|x l IH]; simpl.
  - split; [constructor | done].
  - rewrite filter_cons. destruct (decide (P x)) as [HP|HP]; simpl.
    + split; [done | inversion 1; subst; contradiction].
    + rewrite IH. split; [by constructor | by inversion 1].
Qed.

Lemma head_filter_Some {A} (P : A → Prop) `{!∀ x, Decision (P x)} (l : list A) m :
  head (filter P l) = Some m ↔
  ∃ l1 l2, l = (l1 ++ m :: l2)%list ∧ Forall (λ x, ¬ P x) l1 ∧ P m.
Proof.
  induction l as [|x l IH]; simpl.
  - split; [done | intros (l1 & l2 & Heq & _); by destruct l1].
  - rewrite filter_cons. destruct (decide (P x)) as [HP|HP]; simpl.
    + split.
      * intros [= ->]. exists [], l. by repeat split.
      * intros (l1 & l2 & Heq & Hl1 & Hm). destruct l1 as [|y l1]; simpl in Heq.
        -- by inversion Heq.
        -- inversion Heq; subst. inversion Hl1; subst. contradiction.
    + rewrite IH. split.
      * intros (l1 & l2 & -> & Hl1 & Hm). exists (x :: l1), l2.
        repeat split; [by constructor | done].
      * intros (l1 & l2 & Heq & Hl1 & Hm). destruct l1 as [|y l1]; simpl in Heq.
        -- inversion Heq; subst. contradiction.
        -- inversion Heq; subst. inversion Hl1; subst. by exists l1, l2.
Qed.

Lemma update_first_split flt upd l1 m l2 :
  Forall (λ d, ¬ matches flt d) l1 → matches flt m →
  update_first flt upd (l1 ++ m :: l2) = (l1 ++ set_fields upd m :: l2)%list.
Proof.
  intros Hl1 Hm. induction Hl1 as [|d l1 Hd _ IH]; simpl.
  - by rewrite decide_True.
  - by rewrite decide_False, IH.
Qed.

Lemma delete_first_split flt l1 m l2 :
  Forall (λ d, ¬ matches flt d) l1 → matches flt m →
  delete_first flt (l1 ++ m :: l2) = (l1 ++ l2)%list.
Proof.
  intros Hl1 Hm. induction Hl1 as [|d l1 Hd _ IH]; simpl.
  - by rewrite decide_True.
  - by rewrite decide_False, IH.
Qed.

Lemma matches_id o d : matches [IdIs o] d ↔ _id d = o.
Proof.
  unfold matches. split.
  - by inversion 1.
  - intros <-. by repeat constructor.
Qed.

Lemma matches_code code d :
  matches (by_code code) d ↔ fields d !! "invite_code" = Some (VStr code).
Proof.
  unfold matches, by_code. split.
  - by inversion 1.
  - intros H. by repeat constructor.
Qed.

(** With keys that do not repeat, the key of a document on record
    matches nothing before it. *)
Lemma NoDup_ids_before l1 m l2 :
  NoDup (_id <$> (l1 ++ m :: l2)%list) →
  Forall (λ d, ¬ matches [IdIs (_id m)] d) l1.
Proof.
  rewrite fmap_app, fmap_cons. intros Hnd.
  apply NoDup_app in Hnd as (_ & Hdisj & _).
  apply Forall_forall. intros d Hd Hmatch. apply matches_id in Hmatch.
  apply (Hdisj (_id d)).
  - apply list_elem_of_fmap. by exists d.
  - rewrite Hmatch. left.
Qed.

(** ** The paths through [join_meeting] *)

Lemma join_meeting_not_found p w :
  lookup_invite (invite_code p) w = None →
  join_meeting p w = (Raise not_found_join, w).
Proof.
  unfold lookup_invite, meetings, by_code. intros Hhit.
  unfold join_meeting. run. by rewrite find_one, Hhit.
Qed.

Lemma join_meeting_not_active p w m :
  lookup_invite (invite_code p) w = Some m → ¬ is_active m →
  join_meeting p w = (Raise not_active, w).
Proof.
  unfold lookup_invite, meetings, by_code, is_active. intros Hhit Hst.
  unfold join_meeting. run. rewrite find_one, Hhit. simpl.
  by rewrite bool_decide_true.
Qed.

Lemma join_meeting_expired p w m :
  lookup_invite (invite_code p) w = Some m → is_active m →
  expired m (time w) →
  join_meeting p w = (Raise invite_expired, tick w).
Proof.
  unfold lookup_invite, meetings, by_code, is_active, expired, time.
  intros Hhit Hst (e & He & Hlt).
  unfold join_meeting. run. rewrite find_one, Hhit. simpl.
  rewrite bool_decide_false by (by intros []).
  unfold dict_get. rewrite He. simpl. by rewrite bool_decide_true.
Qed.

Lemma join_meeting_proceeds p w m l :
  lookup_invite (invite_code p) w = Some m → is_active m →
  truthy (dict_get m "expires_at") = false ∨
    (∃ e, fields m !! "expires_at" = Some (VDatetime e) ∧ ¬ e < time w) →
  iterate (default (VList []) (fields m !! "participants")) = Some l →
  let w1 := past_expiry_test m w in
  join_meeting p w =
    (Return (join_response m),
     with_db (alter (update_first [IdIs (_id m)]
                       (join_update (email p) l (time w1))) "meeting")
             (tick w1)).
Proof.
  unfold lookup_invite, meetings, by_code, is_active, time, past_expiry_test.
  intros Hhit Hst Hexp Hit.
  unfold join_meeting. run. rewrite find_one, Hhit. simpl.
  rewrite bool_decide_false by (by intros []).
  destruct Hexp as [Hf | (e & He & Hlt)].
  - rewrite Hf. simpl. by rewrite Hit.
  - unfold dict_get. rewrite He. simpl. rewrite bool_decide_false by done.
    by rewrite Hit.
Qed.

Lemma join_meeting_Return p w r w' :
  join_meeting p w = (Return r, w') →
  ∃ m l,
    lookup_invite (invite_code p) w = Some m ∧ is_active m ∧
    (truthy (dict_get m "expires_at") = false ∨
       (∃ e, fields m !! "expires_at" = Some (VDatetime e) ∧ ¬ e < time w)) ∧
    iterate (default (VList []) (fields m !! "participants")) = Some l ∧
    r = join_response m ∧
    w' = with_db (alter (update_first [IdIs (_id m)]
                           (join_update (email p) l (time (past_expiry_test m w))))
                        "meeting")
                 (tick (past_expiry_test m w)).
Proof.
  intros Hrun.
  destruct (lookup_invite (invite_code p) w) as [m|] eqn:Hhit;
    [|by rewrite join_meeting_not_found in Hrun].
  destruct (decide (is_active m)) as [Hact|Hact];
    [|by rewrite (join_meeting_not_active _ _ m) in Hrun].
  assert (Hcases :
    truthy (dict_get m "expires_at") = false ∨
    (∃ e, fields m !! "expires_at" = Some (VDatetime e)) ∨
    (truthy (dict_get m "expires_at") = true ∧
     ∀ e, dict_get m "expires_at" ≠ VDatetime e)).
  { destruct (truthy (dict_get m "expires_at")) eqn:Ht; [|by left]. right.
    unfold dict_get in *.
    destruct (fields m !! "expires_at") as [v|]; simpl in *; [|done].
    destruct v; eauto; right; done. }
  destruct Hcases as [Hf | [[e He] | [Ht Hne]]].
  - destruct (iterate (default (VList []) (fields m !! "participants")))
      as [l|] eqn:Hit.
    + rewrite (join_meeting_proceeds p w m l) in Hrun by eauto.
      simpl in Hrun. inversion Hrun; subst. exists m, l. eauto 10.
    + exfalso. revert Hrun. unfold lookup_invite, meetings, by_code, is_active in *.
      unfold join_meeting. run. rewrite find_one, Hhit. simpl.
      rewrite bool_decide_false by (by intros []). rewrite Hf. simpl.
      by rewrite Hit.
  - destruct (decide (e < time w)) as [Hlt|Hlt].
    { rewrite (join_meeting_expired p w m) in Hrun; [done..|]. by exists e. }
    destruct (iterate (default (VList []) (fields m !! "participants")))
      as [l|] eqn:Hit.
    + rewrite (join_meeting_proceeds p w m l) in Hrun by eauto.
      simpl in Hrun. inversion Hrun; subst. exists m, l. eauto 10.
    + exfalso. revert Hrun. unfold lookup_invite, meetings, by_code, is_active, time in *.
      unfold join_meeting. run. rewrite find_one, Hhit. simpl.
      rewrite bool_decide_false by (by intros []).
      unfold dict_get. rewrite He. simpl. rewrite bool_decide_false by done.
      by rewrite Hit.
  - exfalso. revert Hrun. unfold lookup_invite, meetings, by_code, is_active in *.
    unfold join_meeting. run. rewrite find_one, Hhit. simpl.
    rewrite bool_decide_false by (by intros []). rewrite Ht.
    destruct (dict_get m "expires_at") eqn:Hv; try done.
    by destruct (Hne t).
Qed.

Lemma join_meeting_Raise p w e w' :
  join_meeting p w = (Raise e, w') →
  db w' = db w ∧ oid_counter w' = oid_counter w.
Proof.
  unfold join_meeting. run. rewrite find_one.
  destruct (head _) as [m|]; simpl; [|by intros [= _ <-]].
  case_bool_decide; [by intros [= _ <-]|].
  destruct (truthy (dict_get m "expires_at")).
  - destruct (dict_get m "expires_at"); try (by intros [= _ <-]).
    case_bool_decide; [by intros [= _ <-]|].
    destruct (iterate _); by intros [= _ <-].
  - destruct (iterate _); by intros [= _ <-].
Qed.

(** ** The paths through [create_meeting] and [end_meeting] *)

Lemma create_meeting_run p w :
  expiry_computable p w = true →
  create_meeting p w =
    (Return (create_response p w),
     World (<["meeting" := (meetings w ++ [new_meeting p w])%list]> (db w))
           (oid_counter w + 1 + 1) (clock w) (S (S (clock_reads w)))).
Proof.
  unfold expiry_computable, time. intros [Hd Ha]%andb_true_iff.
  apply negb_true_iff in Ha. run_create.
  rewrite Hd. cbv beta iota. rewrite Ha. reflexivity.
Qed.

Lemma create_meeting_overflow p w :
  expiry_computable p w = false →
  create_meeting p w = (Raise OverflowError, tick w).
Proof.
  unfold expiry_computable, time. intros Hno. run_create.
  destruct (timedelta_in_range (ttl_minutes p)); [|reflexivity].
  simpl in Hno. apply negb_false_iff in Hno.
  cbv beta iota. rewrite Hno. reflexivity.
Qed.

Lemma create_meeting_Return p w r w' :
  create_meeting p w = (Return r, w') →
  expiry_computable p w = true ∧ r = create_response p w ∧
  w' = (create_meeting p w).2.
Proof.
  intros Hrun. destruct (expiry_computable p w) eqn:Hexp.
  - rewrite Hrun. rewrite create_meeting_run in Hrun by done.
    by inversion Hrun.
  - by rewrite create_meeting_overflow in Hrun.
Qed.

(** For a reading within a [datetime]'s range, the sum overflows exactly
    when it is outside of the range. *)
Lemma datetime_overflows_spec t d :
  (datetime_min ≤ t ≤ datetime_max)%Z →
  datetime_overflows t d = false ↔ (datetime_min ≤ t + d ≤ datetime_max)%Z.
Proof.
  intros Ht. unfold datetime_overflows. rewrite orb_false_iff.
  rewrite !bool_decide_eq_false. lia.
Qed.

Lemma representable_computable p w :
  expiry_representable p w → expiry_computable p w = true.
Proof.
  intros [Hd Hs]. unfold expiry_computable, timedelta_in_range.
  rewrite bool_decide_true by done. simpl. apply negb_true_iff.
  unfold datetime_overflows, timedelta_minutes. apply orb_false_iff.
  rewrite !bool_decide_eq_false. lia.
Qed.

Lemma instant_computable p w : ttl_minutes p = 0 → expiry_computable p w = true.
Proof.
  intros Httl. unfold expiry_computable. rewrite Httl. reflexivity.
Qed.

Lemma end_meeting_not_found code w :
  lookup_invite code w = None →
  end_meeting code w = (Raise not_found_end, w).
Proof.
  unfold lookup_invite, meetings, by_code. intros Hhit.
  unfold end_meeting. run. by rewrite find_one, Hhit.
Qed.

Lemma end_meeting_found code w m :
  lookup_invite code w = Some m →
  end_meeting code w =
    (Return end_response,
     with_db (alter (delete_first [IdIs (_id m)]) "meeting")
       (with_db (alter (update_first [IdIs (_id m)] (end_update (time w))) "meeting")
          (tick w))).
Proof.
  unfold lookup_invite, meetings, by_code. intros Hhit.
  unfold end_meeting. run. by rewrite find_one, Hhit.
Qed.

(** ** The meetings on record after each handler *)

Lemma meetings_alter f w :
  f [] = [] → meetings (with_db (alter f "meeting") w) = f (meetings w).
Proof. apply collection_alter. Qed.

Lemma lookup_invite_split code w m :
  lookup_invite code w = Some m ↔
  ∃ l1 l2, meetings w = (l1 ++ m :: l2)%list ∧
    Forall (λ d, fields d !! "invite_code" ≠ Some (VStr code)) l1 ∧
    fields m !! "invite_code" = Some (VStr code).
Proof.
  unfold lookup_invite. rewrite head_filter_Some.
  split; intros (l1 & l2 & Heq & Hl1 & Hm); exists l1, l2;
    (split; [done|]); split.
  - eapply Forall_impl; [exact Hl1|]. intros d Hd Hc. by apply Hd, matches_code.
  - by apply matches_code.
  - eapply Forall_impl; [exact Hl1|]. intros d Hd Hc. by apply Hd, matches_code.
  - by apply matches_code.
Qed.

Lemma lookup_invite_None code w :
  lookup_invite code w = None ↔
  Forall (λ d, fields d !! "invite_code" ≠ Some (VStr code)) (meetings w).
Proof.
  unfold lookup_invite. rewrite head_filter_None.
  split; intros H; (eapply Forall_impl; [exact H|]); intros d Hd Hc;
    by apply Hd, matches_code.
Qed.

Lemma lookup_invite_elem code w m : lookup_invite code w = Some m → m ∈ meetings w.
Proof.
  intros (l1 & l2 & -> & _)%lookup_invite_split.
  apply elem_of_app. right. left.
Qed.

Lemma meetings_join p w r w' :
  unique_ids w → join_meeting p w = (Return r, w') →
  ∃ m l l1 l2,
    lookup_invite (invite_code p) w = Some m ∧
    iterate (default (VList []) (fields m !! "participants")) = Some l ∧
    meetings w = (l1 ++ m :: l2)%list ∧
    meetings w' =
      (l1 ++ set_fields (join_update (email p) l (time (past_expiry_test m w))) m
          :: l2)%list ∧
    oid_counter w' = oid_counter w ∧
    Forall (λ d, fields d !! "invite_code" ≠ Some (VStr (invite_code p))) l1.
Proof.
  intros Hids Hrun.
  apply join_meeting_Return in Hrun as (m & l & Hhit & _ & _ & Hit & _ & ->).
  pose proof Hhit as (l1 & l2 & Heq & Hl1 & _)%lookup_invite_split.
  exists m, l, l1, l2. repeat split; try done.
  - rewrite meetings_alter by done.
    assert (meetings (tick (past_expiry_test m w)) = meetings w) as ->.
    { unfold past_expiry_test. by destruct (truthy _). }
    rewrite Heq. apply update_first_split; [|by apply matches_id].
    unfold unique_ids in Hids. rewrite Heq in Hids.
    by eapply NoDup_ids_before.
  - unfold past_expiry_test. by destruct (truthy _).
Qed.

Lemma meetings_end code w r w' :
  unique_ids w → end_meeting code w = (Return r, w') →
  ∃ m l1 l2,
    lookup_invite code w = Some m ∧
    meetings w = (l1 ++ m :: l2)%list ∧
    meetings w' = (l1 ++ l2)%list ∧
    oid_counter w' = oid_counter w.
Proof.
  intros Hids Hrun.
  destruct (lookup_invite code w) as [m|] eqn:Hhit;
    [|by rewrite end_meeting_not_found in Hrun].
  rewrite (end_meeting_found _ _ m) in Hrun by done.
  inversion Hrun; subst; clear Hrun.
  pose proof Hhit as (l1 & l2 & Heq & _ & _)%lookup_invite_split.
  exists m, l1, l2. repeat split; try done.
  rewrite !meetings_alter by done.
  assert (meetings (tick w) = meetings w) as -> by done.
  unfold unique_ids in Hids. rewrite Heq in Hids.
  rewrite Heq, update_first_split;
    [|by eapply NoDup_ids_before|by apply matches_id].
  apply delete_first_split; [by eapply NoDup_ids_before|by apply matches_id].
Qed.

Lemma meetings_create p w :
  expiry_computable p w = true →
  meetings (create_meeting p w).2 = (meetings w ++ [new_meeting p w])%list.
Proof.
  intros Hc. rewrite create_meeting_run by done.
  unfold meetings at 1, collection. simpl. by rewrite lookup_insert_eq.
Qed.

Lemma db_create_overflow p w :
  expiry_computable p w = false → db (create_meeting p w).2 = db w.
Proof. intros Hc. by rewrite create_meeting_overflow. Qed.

Lemma meetings_create_overflow p w :
  expiry_computable p w = false → meetings (create_meeting p w).2 = meetings w.
Proof. intros Hc. by rewrite create_meeting_overflow. Qed.

(** ** The invariant of the store *)

Lemma ObjectId_str_inj a b : ObjectId_str a = ObjectId_str b → a = b.
Proof.
  unfold ObjectId_str. intros Heq.
  by rewrite <- (HexString.to_N_of_N a), <- (HexString.to_N_of_N b), Heq.
Qed.

Lemma meeting_ok_mono bound bound' d :
  (bound ≤ bound')%N → meeting_ok bound d → meeting_ok bound' d.
Proof.
  intros Hle [Hid (n & Hn & Hcode) Hst Hpart]. split; [lia| |done..].
  exists n. split; [lia|done].
Qed.

Lemma new_meeting_ok p w : meeting_ok (oid_counter w + 1 + 1) (new_meeting p w).
Proof.
  split.
  - simpl. lia.
  - exists (oid_counter w). split; [lia|]. done.
  - done.
  - exists []. split; [done|constructor].
Qed.

Lemma joined_meeting_ok bound who l t m :
  meeting_ok bound m → meeting_ok bound (set_fields (join_update who l t) m).
Proof.
  intros [Hid (n & Hn & Hcode) Hst Hpart]. split.
  - done.
  - exists n. split; [done|]. simpl. unfold join_update.
    rewrite lookup_union_r; [done|]. by simplify_map_eq.
  - unfold is_active, dict_get in *. simpl. unfold join_update.
    rewrite lookup_union_r; [done|]. by simplify_map_eq.
  - eexists. split.
    + simpl. unfold join_update. erewrite lookup_union_Some_l; [done|].
      by simplify_map_eq.
    + apply NoDup_elements.
Qed.

Lemma joined_meeting_code who l t m :
  fields (set_fields (join_update who l t) m) !! "invite_code"
  = fields m !! "invite_code".
Proof.
  simpl. unfold join_update. rewrite lookup_union_r; [done|]. by simplify_map_eq.
Qed.

Lemma store_ok_start w : db w = ∅ → store_ok w.
Proof.
  intros Hdb. assert (meetings w = []) as Hm.
  { unfold meetings, collection. by rewrite Hdb, lookup_empty. }
  split; unfold unique_ids; rewrite Hm; simpl; constructor.
Qed.

Lemma store_ok_same w w' :
  db w' = db w → oid_counter w' = oid_counter w → store_ok w → store_ok w'.
Proof.
  intros Hdb Hc [Hall Hids Hcodes].
  assert (meetings w' = meetings w) as Hm.
  { unfold meetings, collection. by rewrite Hdb. }
  split; unfold unique_ids in *; by rewrite ?Hm, ?Hc.
Qed.

Lemma store_ok_create p w : store_ok w → store_ok (create_meeting p w).2.
Proof.
  intros Hok. destruct (expiry_computable p w) eqn:Hexp; cycle 1.
  { rewrite create_meeting_overflow by done. by apply (store_ok_same w). }
  destruct Hok as [Hall Hids Hcodes].
  pose proof (meetings_create p w Hexp) as Hm.
  split; unfold unique_ids in *; rewrite Hm.
  - rewrite create_meeting_run by done. simpl. apply Forall_app. split.
    + eapply Forall_impl; [exact Hall|]. intros d. apply meeting_ok_mono. lia.
    + apply Forall_singleton, new_meeting_ok.
  - rewrite fmap_app. apply NoDup_app. repeat split; [done| |].
    + intros o Ho. simpl. rewrite list_elem_of_singleton. intros ->.
      apply list_elem_of_fmap in Ho as (d & Hd & Hin).
      rewrite Forall_forall in Hall. apply Hall in Hin as [Hid _ _ _]. lia.
    + simpl. apply NoDup_singleton.
  - rewrite fmap_app. apply NoDup_app. repeat split; [done| |].
    + intros c Hc. simpl. rewrite list_elem_of_singleton. intros ->.
      apply list_elem_of_fmap in Hc as (d & Hd & Hin).
      rewrite Forall_forall in Hall.
      apply Hall in Hin as [_ (n & Hn & Hcode) _ _].
      rewrite Hcode in Hd. change (fields (new_meeting p w) !! "invite_code")
        with (Some (VStr (ObjectId_str (oid_counter w)))) in Hd.
      injection Hd as Hd. apply ObjectId_str_inj in Hd. lia.
    + simpl. apply NoDup_singleton.
Qed.

Lemma store_ok_join p w : store_ok w → store_ok (join_meeting p w).2.
Proof.
  intros Hok. destruct (join_meeting p w) as [[r|e] w'] eqn:Hrun; simpl.
  - destruct Hok as [Hall Hids Hcodes].
    apply meetings_join in Hrun
      as (m & l & l1 & l2 & _ & _ & Heq & Heq' & Hc & _); [|done].
    split; unfold unique_ids in *; rewrite Heq', ?Hc; rewrite Heq in *.
    + apply Forall_app in Hall as [H1 H2]. inversion H2; subst.
      apply Forall_app. split; [done|]. constructor; [|done].
      by apply joined_meeting_ok.
    + by rewrite fmap_app, fmap_cons in *.
    + rewrite fmap_app, fmap_cons in *. by rewrite joined_meeting_code.
  - apply join_meeting_Raise in Hrun as [Hdb Hc]. by eapply store_ok_same.
Qed.

Lemma store_ok_end code w : store_ok w → store_ok (end_meeting code w).2.
Proof.
  intros Hok. destruct (end_meeting code w) as [[r|e] w'] eqn:Hrun; simpl.
  - destruct Hok as [Hall Hids Hcodes].
    apply meetings_end in Hrun as (m & l1 & l2 & _ & Heq & Heq' & Hc); [|done].
    split; unfold unique_ids in *; rewrite Heq', ?Hc; rewrite Heq in *.
    + apply Forall_app in Hall as [H1 H2]. inversion H2; subst.
      apply Forall_app. by split.
    + rewrite fmap_app, fmap_cons in *.
      apply NoDup_app in Hids as (? & Hd & Hnd). apply NoDup_cons in Hnd as [??].
      apply NoDup_app. repeat split; [done| |done].
      intros x Hx Hx2. apply (Hd x Hx). by right.
    + rewrite fmap_app, fmap_cons in *.
      apply NoDup_app in Hcodes as (? & Hd & Hnd). apply NoDup_cons in Hnd as [??].
      apply NoDup_app. repeat split; [done| |done].
      intros x Hx Hx2. apply (Hd x Hx). by right.
  - destruct (lookup_invite code w) as [m|] eqn:Hhit.
    + by rewrite (end_meeting_found _ _ m) in Hrun.
    + rewrite end_meeting_not_found in Hrun by done. by inversion Hrun; subst.
Qed.

Lemma store_ok_handle r w : store_ok w → store_ok (handle r w).2.
Proof.
  destruct r; simpl;
    [apply store_ok_create | apply store_ok_join | apply store_ok_end].
Qed.

Lemma reachable_store_ok w : reachable w → store_ok w.
Proof.
  induction 1 as [w Hdb | w r _ IH].
  - by apply store_ok_start.
  - by apply store_ok_handle.
Qed.

Lemma reachable_handle_all rs w : reachable w → reachable (handle_all rs w).
Proof.
  revert w. induction rs as [|r rs IH]; intros w Hw; simpl; [done|].
  apply IH. by constructor.
Qed.

(** ** Joining: the order of the tests *)

(** C1. [join_meeting] tests its error conditions in a fixed order: when no
    meeting carries the invite code it raises 404 "Invite not found";
    otherwise, when the meeting found is not [active], 400 "Meeting not
    active"; otherwise, when its [expires_at] lies before the clock's
    reading, 410 "Invite expired".  None of the three writes to the
    database.  A join that answers, or that writes, has passed all three
    tests; and a meeting that passes them goes on to the update that adds
    the participant. *)
Theorem join_meeting_checks_in_order (p : JoinMeetingRequest) (w : world) :
  (lookup_invite (invite_code p) w = None →
   join_meeting p w = (Raise (HTTPException 404 "Invite not found"), w)) ∧
  (∀ m, lookup_invite (invite_code p) w = Some m → ¬ is_active m →
   join_meeting p w = (Raise (HTTPException 400 "Meeting not active"), w)) ∧
  (∀ m, lookup_invite (invite_code p) w = Some m → is_active m →
   expired m (time w) →
   join_meeting p w = (Raise (HTTPException 410 "Invite expired"), tick w)) ∧
  (∀ o w', join_meeting p w = (o, w') →
   (∃ r, o = Return r) ∨ db w' ≠ db w →
   ∃ m, lookup_invite (invite_code p) w = Some m ∧ is_active m ∧
        ¬ expired m (time w)) ∧
  (∀ m l, lookup_invite (invite_code p) w = Some m → is_active m →
   truthy (dict_get m "expires_at") = false ∨
     (∃ e, fields m !! "expires_at" = Some (VDatetime e) ∧ ¬ e < time w) →
   iterate (default (VList []) (fields m !! "participants")) = Some l →
   ∃ t w1,
     join_meeting p w =
       (Return (join_response m),
        with_db (alter (update_first [IdIs (_id m)]
                          (join_update (email p) l t)) "meeting") w1) ∧
     db w1 = db w).
Proof.
  repeat split.
  - apply join_meeting_not_found.
  - apply join_meeting_not_active.
  - apply join_meeting_expired.
  - intros o w' Hrun Hgo.
    assert (∃ r, o = Return r) as [r ->].
    { destruct Hgo as [Hr|Hdb]; [done|]. destruct o as [r|e]; [by exists r|].
      apply join_meeting_Raise in Hrun as [Hsame _]. by destruct Hdb. }
    apply join_meeting_Return in Hrun as (m & l & Hhit & Hact & Hexp & _).
    exists m. repeat split; [done..|].
    intros (e & He & Hlt). destruct Hexp as [Hf | (e' & He' & Hge)].
    + unfold dict_get in Hf. by rewrite He in Hf.
    + rewrite He in He'. injection He' as ->. contradiction.
  - intros m l Hhit Hact Hexp Hit.
    eexists _, _. split; [by apply join_meeting_proceeds|].
    unfold past_expiry_test. by destruct (truthy _).
Qed.

(** C7. A join whose invite code is on no stored meeting raises 404,
    whatever else the store holds and whatever the clock reads; the world
    is left as it was. *)
Theorem join_unknown_code_404 (who code : string) (w : world) :
  (∀ d, d ∈ meetings w → fields d !! "invite_code" ≠ Some (VStr code)) →
  join_meeting {| email := who; invite_code := code |} w
  = (Raise (HTTPException 404 "Invite not found"), w).
Proof.
  intros Hnone. apply join_meeting_not_found. simpl.
  apply lookup_invite_None, Forall_forall, Hnone.
Qed.

(** ** Creating *)

Lemma new_meeting_found p w :
  store_ok w → expiry_computable p w = true →
  lookup_invite (ObjectId_str (oid_counter w)) (create_meeting p w).2
  = Some (new_meeting p w).
Proof.
  intros [Hall _ _] Hexp. apply lookup_invite_split.
  exists (meetings w), []. repeat split.
  - by apply meetings_create.
  - eapply Forall_impl; [exact Hall|]. intros d [_ (n & Hn & Hcode) _ _] Hd.
    rewrite Hcode in Hd. injection Hd as Hd. apply ObjectId_str_inj in Hd. lia.
Qed.

(** C2, against the claim as worded: not every request creates a record.
    A request for ten billion minutes, at any reading of the clock within
    a [datetime]'s range, raises [OverflowError] when the expiry is
    computed; the clock has been read, and nothing is written. *)
Lemma create_meeting_overflows_on_long_ttl :
  create_meeting endless_request frozen_world
  = (Raise OverflowError, tick frozen_world) ∧
  meetings (create_meeting endless_request frozen_world).2 = [].
Proof. split; reflexivity. Qed.

(** C2, amended.  When the expiry can be represented, the duration as a
    [timedelta] and the sum as a [datetime], [create_meeting] answers.  It
    appends one record whose [expires_at] is the clock's reading plus
    [ttl_minutes] minutes, whose invite code is the text of an identifier
    drawn from the generator, on no record so far, whose [status] is
    [active] and whose [participants] is the empty list; the response holds
    exactly that record's key as [id], its invite code and its expiry.  A
    request that leaves [ttl_minutes] out has 120. *)
Theorem create_meeting_record (p : CreateMeetingRequest) (w : world) :
  expiry_representable p w →
  ∃ d code expires,
    (create_meeting p w).1
      = Return {[ "id" := JStr (ObjectId_str (_id d));
                  "invite_code" := JStr code;
                  "expires_at" := JIsoformat expires ]} ∧
    meetings (create_meeting p w).2 = (meetings w ++ [d])%list ∧
    expires = time w + ttl_minutes p * 60000000 ∧
    fields d !! "expires_at" = Some (VDatetime expires) ∧
    fields d !! "invite_code" = Some (VStr code) ∧
    code = ObjectId_str (oid_counter w) ∧
    (reachable w →
     ∀ d', d' ∈ meetings w → fields d' !! "invite_code" ≠ Some (VStr code)) ∧
    fields d !! "status" = Some (VStr "active") ∧
    fields d !! "participants" = Some (VList []) ∧
    fields d !! "host_email" = Some (VStr (host_email p)) ∧
    fields d !! "title" = Some (from_option VStr VNone (title p)) ∧
    ∀ h t, ttl_minutes (parse_CreateMeetingRequest h t None) = 120.
Proof.
  intros Hexp%representable_computable.
  exists (new_meeting p w), (ObjectId_str (oid_counter w)),
    (time w + timedelta_minutes (ttl_minutes p)).
  repeat split.
  - by rewrite create_meeting_run.
  - by apply meetings_create.
  - intros Hw d' Hd' Hcode. apply reachable_store_ok in Hw as [Hall _ _].
    rewrite Forall_forall in Hall. apply Hall in Hd' as [_ (n & Hn & Hc) _ _].
    rewrite Hc in Hcode. injection Hcode as Hcode.
    apply ObjectId_str_inj in Hcode. lia.
Qed.

Lemma create_meeting_record_witness :
  ∃ d code expires,
    (create_meeting hour_request ticking_world).1
      = Return {[ "id" := JStr (ObjectId_str (_id d));
                  "invite_code" := JStr code;
                  "expires_at" := JIsoformat expires ]} ∧
    meetings (create_meeting hour_request ticking_world).2 = [d] ∧
    expires = 3600000000 ∧
    fields d !! "expires_at" = Some (VDatetime expires).
Proof.
  destruct (create_meeting_record hour_request ticking_world)
    as (d & code & expires & Hret & Hm & He & Hf & _).
  { split; vm_compute; split; discriminate. }
  by exists d, code, expires.
Defined.

(** C4, as the code has it.  A meeting created with [ttl_minutes = 0]
    expires at the very reading of the clock it was created at, and a join
    that follows at once raises 410 "Invite expired" when the clock then
    reads strictly later than that. *)
Theorem ttl_zero_then_join_expired (p : CreateMeetingRequest) (who : string)
    (w : world) :
  reachable w → ttl_minutes p = 0 →
  let w1 := (create_meeting p w).2 in
  let code := ObjectId_str (oid_counter w) in
  (∃ id, (create_meeting p w).1
         = Return {[ "id" := JStr id; "invite_code" := JStr code;
                     "expires_at" := JIsoformat (time w) ]}) ∧
  (∃ d, lookup_invite code w1 = Some d ∧
        fields d !! "expires_at" = Some (VDatetime (time w))) ∧
  (time w < time w1 →
   join_meeting {| email := who; invite_code := code |} w1
   = (Raise (HTTPException 410 "Invite expired"), tick w1)).
Proof.
  intros Hw Httl w1 code. apply reachable_store_ok in Hw.
  assert (time w + timedelta_minutes (ttl_minutes p) = time w) as Hexp.
  { rewrite Httl. unfold timedelta_minutes. lia. }
  pose proof (instant_computable p w Httl) as Hcomp.
  pose proof (new_meeting_found p w Hw Hcomp) as Hhit.
  assert (fields (new_meeting p w) !! "expires_at" = Some (VDatetime (time w)))
    as Hfield.
  { change (fields (new_meeting p w) !! "expires_at")
      with (Some (VDatetime (time w + timedelta_minutes (ttl_minutes p)))).
    by rewrite Hexp. }
  repeat split.
  - exists (ObjectId_str (oid_counter w + 1)).
    rewrite create_meeting_run by done.
    simpl. unfold create_response. by rewrite Hexp.
  - by exists (new_meeting p w).
  - intros Hlater. apply (join_meeting_expired _ _ (new_meeting p w)); [done..|].
    by exists (time w).
Qed.

Lemma ttl_zero_then_join_expired_witness :
  let w := World ∅ 0 (λ n, Z.of_nat n) 0 in
  join_meeting {| email := "b@x.com"; invite_code := ObjectId_str 0 |}
    (create_meeting instant_request w).2
  = (Raise (HTTPException 410 "Invite expired"),
     tick (create_meeting instant_request w).2).
Proof.
  intros w.
  apply (ttl_zero_then_join_expired instant_request "b@x.com" w).
  - by apply reachable_start.
  - reflexivity.
  - vm_compute. reflexivity.
Defined.

(** C4, as the spec words it, fails when the clock has not moved: at the
    very instant of creation [expires_at] is not yet in the past, and the
    join is let in. *)
Lemma ttl_zero_join_at_creation_instant_succeeds :
  let w1 := (create_meeting instant_request frozen_world).2 in
  let o := (join_meeting {| email := "b@x.com"; invite_code := ObjectId_str 0 |}
              w1).1 in
  reachable frozen_world ∧ ttl_minutes instant_request = 0 ∧
  (time frozen_world ≤ time w1)%Z ∧
  o = Return {[ "ok" := JBool true; "meeting_id" := JStr (ObjectId_str 1) ]} ∧
  o ≠ Raise (HTTPException 410 "Invite expired").
Proof.
  assert ((join_meeting {| email := "b@x.com"; invite_code := ObjectId_str 0 |}
             (create_meeting instant_request frozen_world).2).1
          = Return {[ "ok" := JBool true; "meeting_id" := JStr (ObjectId_str 1) ]})
    as Hrun by (vm_compute; reflexivity).
  intros w1 o. split; [by apply reachable_start|].
  split; [reflexivity|]. split; [vm_compute; discriminate|].
  split; [exact Hrun|]. unfold o, w1. rewrite Hrun. discriminate.
Qed.

(** ** Joining: the participants *)

Lemma occurrences_NoDup who l : NoDup l → (occurrences who l ≤ 1)%nat.
Proof.
  unfold occurrences. induction 1 as [|x l Hx Hnd IH]; simpl; [lia|].
  rewrite filter_cons. destruct (decide (x = who)) as [->|Hne]; simpl; [|lia].
  assert (filter (λ y, y = who) l = []) as ->; [|simpl; lia].
  destruct (filter _ l) as [|y l'] eqn:Hf; [done|].
  assert (y ∈ filter (λ y, y = who) l) as [-> Hy]%list_elem_of_filter
    by (rewrite Hf; left).
  contradiction.
Qed.

Lemma occurrences_elem who l : who ∈ l → (1 ≤ occurrences who l)%nat.
Proof.
  unfold occurrences. induction 1 as [x l | x y l _ IH]; rewrite filter_cons.
  - rewrite decide_True by done. simpl. lia.
  - destruct (decide _); simpl; lia.
Qed.

Lemma joined_participants who l t m :
  participants (set_fields (join_update who l t) m)
  = Some (elements (list_to_set l ∪ {[ who ]} : gset string)).
Proof. unfold participants. simpl. unfold join_update. by simplify_map_eq. Qed.

Lemma joined_other_fields who l t m k :
  k ≠ "participants" → k ≠ "updated_at" →
  fields (set_fields (join_update who l t) m) !! k = fields m !! k.
Proof.
  intros H1 H2. simpl. unfold join_update.
  apply lookup_union_r. by simplify_map_eq.
Qed.

(** After a join that answered, the invite code designates the same
    record, with the fields of the join written to it. *)
Lemma lookup_invite_join p w r w' :
  unique_ids w → join_meeting p w = (Return r, w') →
  ∃ m l t,
    lookup_invite (invite_code p) w = Some m ∧
    iterate (default (VList []) (fields m !! "participants")) = Some l ∧
    lookup_invite (invite_code p) w'
      = Some (set_fields (join_update (email p) l t) m) ∧
    unique_ids w'.
Proof.
  intros Hids Hrun.
  pose proof (meetings_join _ _ _ _ Hids Hrun)
    as (m & l & l1 & l2 & Hhit & Hit & Heq & Heq' & _ & Hl1).
  exists m, l, (time (past_expiry_test m w)). repeat split; try done.
  - apply lookup_invite_split. exists l1, l2. repeat split; try done.
    rewrite joined_other_fields by done.
    by apply lookup_invite_split in Hhit as (? & ? & _ & _ & ?).
  - unfold unique_ids in *. rewrite Heq'. rewrite Heq in Hids.
    by rewrite fmap_app, fmap_cons in *.
Qed.


Lemma lookup_invite_same_db code w w' :
  db w' = db w → lookup_invite code w' = lookup_invite code w.
Proof. intros Hdb. unfold lookup_invite, meetings, collection. by rewrite Hdb. Qed.



Lemma occurrences_not_elem who l : who ∉ l → occurrences who l = 0%nat.
Proof.
  unfold occurrences. induction l as [|x l IH]; [done|]. intros Hnot.
  apply not_elem_of_cons in Hnot as [Hne Hnot].
  rewrite filter_cons, decide_False by done. by apply IH.
Qed.

Lemma occurrences_same l l' :
  NoDup l → NoDup l' → (∀ x, x ∈ l' ↔ x ∈ l) →
  ∀ who, occurrences who l' = occurrences who l.
Proof.
  intros Hnd Hnd' Hsame who. destruct (decide (who ∈ l)) as [Hin|Hnot].
  - apply Nat.le_antisymm.
    + etrans; [by apply occurrences_NoDup|]. by apply occurrences_elem.
    + etrans; [by apply occurrences_NoDup|].
      by apply occurrences_elem, Hsame.
  - rewrite !occurrences_not_elem; [done..|]. by rewrite Hsame.
Qed.

(** C3. After a join that answered, a second join with the same address
    and invite code, whatever it answers, leaves the meeting with a
    participants list in which the address occurs exactly once, and which
    holds the addresses the first join left, each as many times: nothing
    was added and nothing was lost.  The order of the two lists is not
    compared. *)
Theorem join_twice_one_entry (p : JoinMeetingRequest) (w w1 w2 : world)
    (r1 : gmap string json) (o2 : outcome (gmap string json)) :
  unique_ids w →
  join_meeting p w = (Return r1, w1) →
  join_meeting p w1 = (o2, w2) →
  ∃ m1 m2 l1 l2,
    lookup_invite (invite_code p) w1 = Some m1 ∧
    lookup_invite (invite_code p) w2 = Some m2 ∧
    _id m2 = _id m1 ∧
    participants m1 = Some l1 ∧
    participants m2 = Some l2 ∧
    occurrences (email p) l2 = 1%nat ∧
    (∀ who, who ∈ l2 ↔ who ∈ l1) ∧
    (∀ who, occurrences who l2 = occurrences who l1) ∧
    length l2 = length l1.
Proof.
  intros Hids Hrun1 Hrun2.
  apply lookup_invite_join in Hrun1 as (m & l & t & _ & _ & Hhit1 & Hids1);
    [|done].
  set (m1 := set_fields (join_update (email p) l t) m) in *.
  set (l' := elements (list_to_set l ∪ {[ email p ]} : gset string)).
  assert (participants m1 = Some l') as Hp1 by apply joined_participants.
  assert (occurrences (email p) l' = 1%nat) as Hocc.
  { apply Nat.le_antisymm.
    - apply occurrences_NoDup, NoDup_elements.
    - apply occurrences_elem, elem_of_elements. set_solver. }
  destruct o2 as [r2|e].
  - apply lookup_invite_join in Hrun2 as (m' & l2 & t2 & Hhit & Hit & Hhit2 & _);
      [|done].
    rewrite Hhit1 in Hhit. injection Hhit as <-.
    assert (l2 = l') as ->.
    { unfold participants in Hp1.
      destruct (fields m1 !! "participants") as [[]|]; try done.
      simpl in Hit. congruence. }
    set (l'' := elements (list_to_set l' ∪ {[ email p ]} : gset string)).
    assert (∀ who, who ∈ l'' ↔ who ∈ l') as Hsame.
    { intros who. unfold l'', l'.
      rewrite elem_of_elements, elem_of_union, elem_of_list_to_set.
      rewrite !elem_of_elements, elem_of_union, elem_of_singleton. tauto. }
    assert (∀ who, occurrences who l'' = occurrences who l') as Hcount.
    { apply occurrences_same; [apply NoDup_elements..|done]. }
    exists m1, (set_fields (join_update (email p) l' t2) m1), l', l''.
    split; [done|]. split; [done|]. split; [done|]. split; [done|].
    split; [apply joined_participants|].
    split; [by rewrite Hcount|]. split; [done|]. split; [done|].
    apply Permutation_length, NoDup_Permutation; [apply NoDup_elements..|done].
  - apply join_meeting_Raise in Hrun2 as [Hdb _].
    exists m1, m1, l', l'. repeat split; try done.
    by rewrite (lookup_invite_same_db _ _ _ Hdb).
Qed.

(** C10. A join that answered has changed, in the record of the meeting,
    the fields [participants] and [updated_at] and no other: the key and
    every other field, [title], [host_email], [invite_code],
    [expires_at], [status] and [created_at] among them, are as before; and
    the other records are as before. *)
Theorem join_changes_only_participants_and_updated_at
    (p : JoinMeetingRequest) (w w' : world) (r : gmap string json) :
  unique_ids w →
  join_meeting p w = (Return r, w') →
  ∃ m m',
    lookup_invite (invite_code p) w = Some m ∧
    lookup_id (_id m) w = Some m ∧
    lookup_id (_id m) w' = Some m' ∧
    _id m' = _id m ∧
    (∀ k, k ≠ "participants" → k ≠ "updated_at" →
          fields m' !! k = fields m !! k) ∧
    Forall (λ k, fields m' !! k = fields m !! k)
      ["title"; "host_email"; "invite_code"; "expires_at"; "status";
       "created_at"] ∧
    (∀ o, o ≠ _id m → lookup_id o w' = lookup_id o w).
Proof.
  intros Hids Hrun.
  pose proof (meetings_join _ _ _ _ Hids Hrun)
    as (m & l & l1 & l2 & Hhit & _ & Heq & Heq' & _ & _).
  set (m' := set_fields _ m) in Heq'.
  assert (Forall (λ d, ¬ matches [IdIs (_id m)] d) l1) as Hl1.
  { unfold unique_ids in Hids. rewrite Heq in Hids. by eapply NoDup_ids_before. }
  exists m, m'. repeat split; try done.
  - unfold lookup_id. apply head_filter_Some. exists l1, l2.
    repeat split; [done..|]. by apply matches_id.
  - unfold lookup_id. apply head_filter_Some. exists l1, l2.
    repeat split; [done..|]. by apply matches_id.
  - intros k H1 H2. by apply joined_other_fields.
  - repeat constructor; by apply joined_other_fields.
  - intros o Ho. unfold lookup_id. rewrite Heq, Heq'.
    rewrite !filter_app, !filter_cons.
    rewrite !decide_False; [done|..]; rewrite matches_id; simpl; congruence.
Qed.

(** ** The invariant, on every reachable world *)

(** C8. In every world the service can reach through creations, joins
    and ends, every meeting on record holds a [participants] list in which
    no address occurs more than once. *)
Theorem participants_at_most_once (w : world) (d : document) :
  reachable w → d ∈ meetings w →
  ∃ l, participants d = Some l ∧ NoDup l ∧
       ∀ who, (occurrences who l ≤ 1)%nat.
Proof.
  intros Hw Hd. apply reachable_store_ok in Hw as [Hall _ _].
  rewrite Forall_forall in Hall. apply Hall in Hd as [_ _ _ (l & Hl & Hnd)].
  exists l. unfold participants. rewrite Hl. repeat split; [done|].
  intros who. by apply occurrences_NoDup.
Qed.

(** ** Ending *)

Lemma retired_handle r code w :
  store_ok w → retired code w → retired code (handle r w).2.
Proof.
  intros Hok [Hnone (n & Hn & ->)].
  apply lookup_invite_None in Hnone.
  destruct r as [p|p|code']; unfold handle.
  - destruct (expiry_computable p w) eqn:Hexp; cycle 1.
    { rewrite create_meeting_overflow by done. split; [|by exists n].
      by apply lookup_invite_None. }
    split.
    + apply lookup_invite_None. rewrite meetings_create by done.
      apply Forall_app. split; [done|]. apply Forall_singleton.
      change (fields (new_meeting p w) !! "invite_code")
        with (Some (VStr (ObjectId_str (oid_counter w)))).
      intros [= Heq]. apply ObjectId_str_inj in Heq. lia.
    + exists n. split; [|done]. rewrite create_meeting_run by done. simpl. lia.
  - destruct (join_meeting p w) as [[r|e] w'] eqn:Hrun; simpl.
    + apply meetings_join in Hrun
        as (m & l & l1 & l2 & _ & _ & Heq & Heq' & Hc & _); [|by destruct Hok].
      split.
      * apply lookup_invite_None. rewrite Heq'. rewrite Heq in Hnone.
        apply Forall_app in Hnone as [H1 H2]. inversion H2; subst.
        apply Forall_app. split; [done|]. constructor; [|done].
        by rewrite joined_meeting_code.
      * exists n. by rewrite Hc.
    + apply join_meeting_Raise in Hrun as [Hdb Hc]. split.
      * rewrite (lookup_invite_same_db _ _ _ Hdb). by apply lookup_invite_None.
      * exists n. by rewrite Hc.
  - destruct (end_meeting code' w) as [[r|e] w'] eqn:Hrun; simpl.
    + apply meetings_end in Hrun as (m & l1 & l2 & _ & Heq & Heq' & Hc);
        [|by destruct Hok].
      split.
      * apply lookup_invite_None. rewrite Heq'. rewrite Heq in Hnone.
        apply Forall_app in Hnone as [H1 H2]. inversion H2; subst.
        apply Forall_app. by split.
      * exists n. by rewrite Hc.
    + destruct (lookup_invite code' w) as [m|] eqn:Hhit.
      * by rewrite (end_meeting_found _ _ m) in Hrun.
      * rewrite end_meeting_not_found in Hrun by done.
        inversion Hrun; subst. split; [by apply lookup_invite_None|by exists n].
Qed.

Lemma retired_handle_all rs code w :
  store_ok w → retired code w → retired code (handle_all rs w).
Proof.
  revert w. induction rs as [|r rs IH]; intros w Hok Hret; simpl; [done|].
  apply IH; [by apply store_ok_handle | by apply retired_handle].
Qed.

(** A successful end retires the invite code: the one record that carried
    it is gone, and the generator will not hand it out again. *)
Lemma end_meeting_retires code w r w1 :
  store_ok w → end_meeting code w = (Return r, w1) → retired code w1.
Proof.
  intros [Hall Hids Hcodes] Hrun.
  apply meetings_end in Hrun as (m & l1 & l2 & Hhit & Heq & Heq' & Hc); [|done].
  apply lookup_invite_split in Hhit as (_ & _ & _ & _ & Hcode).
  rewrite Heq in Hall, Hcodes.
  rewrite fmap_app, fmap_cons, Hcode in Hcodes.
  apply NoDup_app in Hcodes as (_ & Hdisj & Hnd).
  apply NoDup_cons in Hnd as [Hnotin _].
  split.
  - apply lookup_invite_None. rewrite Heq'. apply Forall_app.
    split; apply Forall_forall; intros d Hd Hdc.
    + apply (Hdisj (Some (VStr code))); [|left].
      apply list_elem_of_fmap. by exists d.
    + apply Hnotin. apply list_elem_of_fmap. by exists d.
  - apply Forall_app in Hall as [_ Hm]. inversion Hm as [|? ? Hmok _]; subst.
    destruct Hmok as [_ (n & Hn & Hcode') _ _].
    rewrite Hcode in Hcode'. injection Hcode' as ->.
    exists n. by rewrite Hc.
Qed.

Lemma store_ok_handle_all rs w : store_ok w → store_ok (handle_all rs w).
Proof.
  revert w. induction rs as [|r rs IH]; intros w Hok; simpl; [done|].
  by apply IH, store_ok_handle.
Qed.

(** C5. Once the end operation has succeeded on an invite code, the
    record is gone from the store, not kept with status [ended]: whatever
    requests follow, no meeting on record carries that code, every meeting
    on record is [active], and a join with that code raises 404 "Invite
    not found" and leaves the world as it was. *)
Theorem end_then_join_404 (code who : string) (w w1 : world)
    (r : gmap string json) (rs : list request) :
  reachable w →
  end_meeting code w = (Return r, w1) →
  let w2 := handle_all rs w1 in
  (∀ d, d ∈ meetings w2 →
        fields d !! "invite_code" ≠ Some (VStr code) ∧ is_active d) ∧
  join_meeting {| email := who; invite_code := code |} w2
  = (Raise (HTTPException 404 "Invite not found"), w2).
Proof.
  intros Hw Hrun w2. apply reachable_store_ok in Hw.
  assert (store_ok w1) as Hok1.
  { pose proof (store_ok_end code w Hw) as Hok. by rewrite Hrun in Hok. }
  pose proof (end_meeting_retires _ _ _ _ Hw Hrun) as Hret.
  pose proof (retired_handle_all rs _ _ Hok1 Hret) as [Hnone _].
  pose proof (store_ok_handle_all rs _ Hok1) as [Hall _ _].
  fold w2 in Hnone, Hall. split.
  - intros d Hd. split.
    + apply lookup_invite_None in Hnone. rewrite Forall_forall in Hnone.
      by apply Hnone.
    + rewrite Forall_forall in Hall. by apply Hall in Hd as [_ _ ? _].
  - by apply join_meeting_not_found.
Qed.

(** C6. The end operation on an invite code that no meeting on record
    carries raises 404 "Meeting not found" and leaves the world as it
    was; this is so, in particular, of a code whose meeting was ended
    before, whatever requests came in between. *)
Theorem end_unknown_code_404 (code : string) (w : world) :
  ((∀ d, d ∈ meetings w → fields d !! "invite_code" ≠ Some (VStr code)) →
   end_meeting code w = (Raise (HTTPException 404 "Meeting not found"), w)) ∧
  (reachable w →
   ∀ r w1 rs, end_meeting code w = (Return r, w1) →
   end_meeting code (handle_all rs w1)
   = (Raise (HTTPException 404 "Meeting not found"), handle_all rs w1)).
Proof.
  split.
  - intros Hnone. apply end_meeting_not_found.
    apply lookup_invite_None, Forall_forall, Hnone.
  - intros Hw r w1 rs Hrun. apply reachable_store_ok in Hw.
    assert (store_ok w1) as Hok1.
    { pose proof (store_ok_end code w Hw) as Hok. by rewrite Hrun in Hok. }
    pose proof (end_meeting_retires _ _ _ _ Hw Hrun) as Hret.
    pose proof (retired_handle_all rs _ _ Hok1 Hret) as [Hnone _].
    by apply end_meeting_not_found.
Qed.

(** ** The theorems at work on concrete requests *)

Lemma run_Return {A} (m : M A) (w : world) (a : A) :
  (m w).1 = Return a → m w = (Return a, (m w).2).
Proof. destruct (m w) as [o w']. simpl. by intros ->. Qed.

Lemma reachable_open_world : reachable open_world.
Proof.
  apply (reachable_handle ticking_world (CreateMeeting hour_request)).
  by apply reachable_start.
Qed.

Lemma join_meeting_checks_in_order_witness :
  join_meeting {| email := "b@x.com"; invite_code := "unknown" |} foreign_world
  = (Raise (HTTPException 404 "Invite not found"), foreign_world) ∧
  join_meeting {| email := "b@x.com"; invite_code := "ended-code" |} foreign_world
  = (Raise (HTTPException 400 "Meeting not active"), foreign_world).
Proof.
  split.
  - apply (proj1 (join_meeting_checks_in_order _ foreign_world)).
    vm_compute. reflexivity.
  - apply (proj1 (proj2 (join_meeting_checks_in_order _ foreign_world)) ended_doc).
    + vm_compute. reflexivity.
    + intros H. vm_compute in H. discriminate.
Defined.

Lemma join_unknown_code_404_witness :
  join_meeting {| email := "b@x.com"; invite_code := "unknown" |} foreign_world
  = (Raise (HTTPException 404 "Invite not found"), foreign_world).
Proof.
  apply (join_unknown_code_404 "b@x.com" "unknown" foreign_world).
  apply (proj1 (Forall_forall
    (λ d, fields d !! "invite_code" ≠ Some (VStr "unknown"))
    (meetings foreign_world))).
  apply (bool_decide_unpack _). vm_compute. exact I.
Defined.


Lemma join_twice_one_entry_witness :
  let w1 := (join_meeting bob open_world).2 in
  let w2 := (join_meeting bob w1).2 in
  ∃ m1 m2 l1 l2,
    lookup_invite (invite_code bob) w1 = Some m1 ∧
    lookup_invite (invite_code bob) w2 = Some m2 ∧
    _id m2 = _id m1 ∧
    participants m1 = Some l1 ∧
    participants m2 = Some l2 ∧
    occurrences (email bob) l2 = 1%nat ∧
    (∀ who, who ∈ l2 ↔ who ∈ l1) ∧
    (∀ who, occurrences who l2 = occurrences who l1) ∧
    length l2 = length l1.
Proof.
  intros w1 w2.
  apply (join_twice_one_entry bob open_world w1 w2
           (join_response (new_meeting hour_request ticking_world))
           (join_meeting bob w1).1).
  - apply (bool_decide_unpack _). vm_compute. exact I.
  - apply run_Return. vm_compute. reflexivity.
  - apply surjective_pairing.
Defined.

Lemma join_changes_only_participants_and_updated_at_witness :
  ∃ m m',
    lookup_invite (invite_code bob) open_world = Some m ∧
    lookup_id (_id m) open_world = Some m ∧
    lookup_id (_id m) (join_meeting bob open_world).2 = Some m' ∧
    _id m' = _id m ∧
    (∀ k, k ≠ "participants" → k ≠ "updated_at" →
          fields m' !! k = fields m !! k) ∧
    Forall (λ k, fields m' !! k = fields m !! k)
      ["title"; "host_email"; "invite_code"; "expires_at"; "status";
       "created_at"] ∧
    (∀ o, o ≠ _id m →
          lookup_id o (join_meeting bob open_world).2 = lookup_id o open_world).
Proof.
  apply (join_changes_only_participants_and_updated_at bob open_world
           (join_meeting bob open_world).2
           (join_response (new_meeting hour_request ticking_world))).
  - apply (bool_decide_unpack _). vm_compute. exact I.
  - apply run_Return. vm_compute. reflexivity.
Defined.

Lemma participants_at_most_once_witness :
  ∃ d l, lookup_invite (ObjectId_str 0) busy_world = Some d ∧
         participants d = Some l ∧ length l = 2%nat ∧
         NoDup l ∧ ∀ who, (occurrences who l ≤ 1)%nat.
Proof.
  pose (d := set_fields (join_update "b@x.com" ["c@x.com"; "b@x.com"] 7)
               (new_meeting hour_request ticking_world)).
  assert (lookup_invite (ObjectId_str 0) busy_world = Some d) as Hd
    by (vm_compute; reflexivity).
  destruct (participants_at_most_once busy_world d) as (l & Hl & Hnd & Hocc).
  - apply (reachable_handle_all
             [JoinMeeting bob; JoinMeeting carol; JoinMeeting bob]).
    apply (reachable_handle ticking_world (CreateMeeting hour_request)).
    apply reachable_start. reflexivity.
  - apply (lookup_invite_elem (ObjectId_str 0)), Hd.
  - exists d, l. split; [exact Hd|]. split; [exact Hl|].
    split; [|split; [exact Hnd|exact Hocc]].
    vm_compute in Hl. injection Hl as <-. reflexivity.
Defined.

Lemma end_then_join_404_witness :
  let w1 := (end_meeting (ObjectId_str 0) open_world).2 in
  let w2 := handle_all [JoinMeeting bob; CreateMeeting hour_request] w1 in
  (∀ d, d ∈ meetings w2 →
        fields d !! "invite_code" ≠ Some (VStr (ObjectId_str 0)) ∧ is_active d) ∧
  join_meeting bob w2 = (Raise (HTTPException 404 "Invite not found"), w2).
Proof.
  intros w1.
  apply (end_then_join_404 (ObjectId_str 0) "b@x.com" open_world w1 end_response
           [JoinMeeting bob; CreateMeeting hour_request]).
  - apply (reachable_handle ticking_world (CreateMeeting hour_request)).
    apply reachable_start. reflexivity.
  - apply run_Return. vm_compute. reflexivity.
Defined.

Lemma end_unknown_code_404_witness :
  end_meeting "unknown" foreign_world
  = (Raise (HTTPException 404 "Meeting not found"), foreign_world) ∧
  (let w1 := (end_meeting (ObjectId_str 0) open_world).2 in
   end_meeting (ObjectId_str 0) w1
   = (Raise (HTTPException 404 "Meeting not found"), w1)).
Proof.
  split.
  - apply (proj1 (end_unknown_code_404 "unknown" foreign_world)).
    apply (proj1 (Forall_forall
      (λ d, fields d !! "invite_code" ≠ Some (VStr "unknown"))
      (meetings foreign_world))).
    apply (bool_decide_unpack _). vm_compute. exact I.
  - intros w1.
    apply (proj2 (end_unknown_code_404 (ObjectId_str 0) open_world)
             reachable_open_world end_response w1 []).
    apply run_Return. vm_compute. reflexivity.
Defined.

(** ** Beyond the claims: what the handlers leave alone *)

Lemma collection_alter_other f name name' w :
  name ≠ name' →
  collection name' (with_db (alter f name) w) = collection name' w.
Proof.
  intros Hne. unfold collection, with_db. simpl. by rewrite lookup_alter_ne.
Qed.

Lemma collection_same_db name w w' :
  db w' = db w → collection name w' = collection name w.
Proof. intros Hdb. unfold collection. by rewrite Hdb. Qed.

Lemma end_meeting_Raise code w e w' :
  end_meeting code w = (Raise e, w') → w' = w ∧ e = not_found_end.
Proof.
  intros Hrun. destruct (lookup_invite code w) as [m|] eqn:Hhit.
  - by rewrite (end_meeting_found _ _ m) in Hrun.
  - rewrite end_meeting_not_found in Hrun by done. by inversion Hrun.
Qed.

(** X1. A request that ends in one of the exceptions the handlers' own
    statements raise, the [HTTPException]s of the three tests, the
    [TypeError] of a comparison or of [set], the [OverflowError] of the
    expiry, has written nothing: the database is as it was, and no
    identifier was drawn.  Each of them is raised before the handler's
    first write.  (A failure of a database call is not among the
    exceptions of [exn].) *)
Theorem failed_request_writes_nothing (r : request) (w w' : world) (e : exn) :
  handle r w = (Raise e, w') →
  db w' = db w ∧ oid_counter w' = oid_counter w.
Proof.
  destruct r as [p|p|code]; unfold handle; intros Hrun.
  - destruct (expiry_computable p w) eqn:Hexp.
    + by rewrite create_meeting_run in Hrun.
    + rewrite create_meeting_overflow in Hrun by done. by inversion Hrun.
  - by apply join_meeting_Raise in Hrun.
  - by apply end_meeting_Raise in Hrun as [-> _].
Qed.

Lemma failed_request_writes_nothing_witness :
  let w' := (handle (CreateMeeting endless_request) foreign_world).2 in
  let w'' := (handle (JoinMeeting {| email := "b@x.com";
                                     invite_code := "ended-code" |})
                foreign_world).2 in
  (db w' = db foreign_world ∧ oid_counter w' = oid_counter foreign_world) ∧
  (db w'' = db foreign_world ∧ oid_counter w'' = oid_counter foreign_world).
Proof.
  intros w' w''. split.
  - apply (failed_request_writes_nothing (CreateMeeting endless_request)
             foreign_world w' OverflowError).
    apply injective_projections; [vm_compute; reflexivity | reflexivity].
  - apply (failed_request_writes_nothing
             (JoinMeeting {| email := "b@x.com"; invite_code := "ended-code" |})
             foreign_world w'' (HTTPException 400 "Meeting not active")).
    apply injective_projections; [vm_compute; reflexivity | reflexivity].
Defined.

(** X2. No request touches a collection other than [meeting]. *)
Theorem other_collections_untouched (r : request) (name : string) (w : world) :
  name ≠ "meeting" →
  collection name (handle r w).2 = collection name w.
Proof.
  intros Hne. destruct r as [p|p|code]; unfold handle.
  - destruct (expiry_computable p w) eqn:Hexp;
      [|by rewrite create_meeting_overflow].
    rewrite create_meeting_run by done. unfold collection. simpl.
    by rewrite lookup_insert_ne.
  - destruct (join_meeting p w) as [[r|e] w'] eqn:Hrun; simpl.
    + apply join_meeting_Return in Hrun as (m & l & _ & _ & _ & _ & _ & ->).
      rewrite collection_alter_other by done.
      apply collection_same_db. unfold past_expiry_test.
      by destruct (truthy _).
    + apply join_meeting_Raise in Hrun as [Hdb _]. by apply collection_same_db.
  - destruct (end_meeting code w) as [[r|e] w'] eqn:Hrun; simpl.
    + destruct (lookup_invite code w) as [m|] eqn:Hhit;
        [|by rewrite end_meeting_not_found in Hrun].
      rewrite (end_meeting_found _ _ m) in Hrun by done.
      inversion Hrun; subst. by rewrite !collection_alter_other.
    + by apply end_meeting_Raise in Hrun as [-> _].
Qed.

Lemma other_collections_untouched_witness :
  let join := JoinMeeting {| email := "b@x.com"; invite_code := "undated-code" |} in
  meetings (handle join shared_world).2 ≠ meetings shared_world ∧
  collection "user" (handle join shared_world).2 = [user_doc].
Proof.
  intros join. split; [vm_compute; discriminate|].
  apply (other_collections_untouched join "user" shared_world).
  discriminate.
Defined.

(** X3. The end operation tests neither the status nor the expiry: it
    succeeds whenever a meeting on record carries the code, and then the
    store holds the same records in the same order but for that one. *)
Theorem end_removes_exactly_that_meeting (code : string) (w : world)
    (m : document) :
  unique_ids w →
  lookup_invite code w = Some m →
  (end_meeting code w).1 = Return {[ "ok" := JBool true ]} ∧
  ∃ l1 l2,
    meetings w = (l1 ++ m :: l2)%list ∧
    meetings (end_meeting code w).2 = (l1 ++ l2)%list.
Proof.
  intros Hids Hhit. split.
  - by rewrite (end_meeting_found _ _ m).
  - destruct (meetings_end code w end_response (end_meeting code w).2 Hids)
      as (m' & l1 & l2 & Hhit' & Heq & Heq' & _).
    { by rewrite (end_meeting_found _ _ m). }
    rewrite Hhit in Hhit'. injection Hhit' as <-. by exists l1, l2.
Qed.

Lemma end_removes_exactly_that_meeting_witness :
  (end_meeting "ended-code" foreign_world).1 = Return {[ "ok" := JBool true ]} ∧
  ∃ l1 l2,
    meetings foreign_world = (l1 ++ ended_doc :: l2)%list ∧
    meetings (end_meeting "ended-code" foreign_world).2 = (l1 ++ l2)%list.
Proof.
  apply (end_removes_exactly_that_meeting "ended-code" foreign_world ended_doc).
  - apply (bool_decide_unpack _). vm_compute. exact I.
  - vm_compute. reflexivity.
Defined.

Lemma lookup_invite_skip code l1 m m' l2 w w' :
  meetings w = (l1 ++ m :: l2)%list →
  meetings w' = (l1 ++ m' :: l2)%list →
  fields m !! "invite_code" ≠ Some (VStr code) →
  fields m' !! "invite_code" ≠ Some (VStr code) →
  lookup_invite code w' = lookup_invite code w.
Proof.
  intros Heq Heq' Hm Hm'. unfold lookup_invite. rewrite Heq, Heq'.
  rewrite !filter_app, !filter_cons.
  by rewrite !decide_False by (by rewrite matches_code).
Qed.

Lemma lookup_invite_drop code l1 m l2 w w' :
  meetings w = (l1 ++ m :: l2)%list →
  meetings w' = (l1 ++ l2)%list →
  fields m !! "invite_code" ≠ Some (VStr code) →
  lookup_invite code w' = lookup_invite code w.
Proof.
  intros Heq Heq' Hm. unfold lookup_invite. rewrite Heq, Heq'.
  rewrite !filter_app, !filter_cons.
  by rewrite decide_False by (by rewrite matches_code).
Qed.

(** X4. A join or an end on one invite code leaves the meeting that any
    other invite code designates exactly as it was. *)
Theorem other_invites_untouched (who code code' : string) (w : world) :
  unique_ids w → code ≠ code' →
  lookup_invite code'
    (join_meeting {| email := who; invite_code := code |} w).2
  = lookup_invite code' w ∧
  lookup_invite code' (end_meeting code w).2 = lookup_invite code' w.
Proof.
  intros Hids Hne. split.
  - destruct (join_meeting _ w) as [[r|e] w'] eqn:Hrun; simpl.
    + apply meetings_join in Hrun
        as (m & l & l1 & l2 & Hhit & _ & Heq & Heq' & _ & _); [|done].
      apply lookup_invite_split in Hhit as (_ & _ & _ & _ & Hcode).
      simpl in Hcode.
      eapply lookup_invite_skip; [exact Heq | exact Heq' | |].
      * rewrite Hcode. congruence.
      * rewrite joined_meeting_code, Hcode. congruence.
    + apply join_meeting_Raise in Hrun as [Hdb _].
      by apply lookup_invite_same_db.
  - destruct (end_meeting code w) as [[r|e] w'] eqn:Hrun; simpl.
    + apply meetings_end in Hrun as (m & l1 & l2 & Hhit & Heq & Heq' & _);
        [|done].
      apply lookup_invite_split in Hhit as (_ & _ & _ & _ & Hcode).
      eapply lookup_invite_drop; [exact Heq | exact Heq' |].
      rewrite Hcode. congruence.
    + by apply end_meeting_Raise in Hrun as [-> _].
Qed.

Lemma other_invites_untouched_witness :
  lookup_invite "undated-code"
    (join_meeting {| email := "b@x.com"; invite_code := "ended-code" |}
       foreign_world).2
  = lookup_invite "undated-code" foreign_world ∧
  lookup_invite "undated-code" (end_meeting "ended-code" foreign_world).2
  = lookup_invite "undated-code" foreign_world.
Proof.
  apply (other_invites_untouched "b@x.com" "ended-code" "undated-code"
           foreign_world).
  - apply (bool_decide_unpack _). vm_compute. exact I.
  - discriminate.
Defined.

(** ** Beyond the claims: who is in a meeting *)

(** X5. A join that answered has dropped nobody: the meeting's new
    [participants] list holds the joiner, holds nobody twice, and holds
    otherwise exactly those the list held before. *)
Theorem join_keeps_participants (p : JoinMeetingRequest) (w w' : world)
    (r : gmap string json) :
  unique_ids w →
  join_meeting p w = (Return r, w') →
  ∃ m m' l',
    lookup_invite (invite_code p) w = Some m ∧
    lookup_invite (invite_code p) w' = Some m' ∧
    participants m' = Some l' ∧
    NoDup l' ∧
    email p ∈ l' ∧
    ∀ l, participants m = Some l → ∀ x, x ∈ l' ↔ x ∈ l ∨ x = email p.
Proof.
  intros Hids Hrun.
  apply lookup_invite_join in Hrun as (m & l0 & t & Hhit & Hit & Hhit' & _);
    [|done].
  exists m, (set_fields (join_update (email p) l0 t) m),
    (elements (list_to_set l0 ∪ {[ email p ]} : gset string)).
  split; [done|]. split; [done|]. split; [apply joined_participants|].
  split; [apply NoDup_elements|].
  split; [apply elem_of_elements; set_solver|].
  intros l Hl x. unfold participants in Hl.
  destruct (fields m !! "participants") as [[]|]; try done.
  injection Hl as ->. simpl in Hit. injection Hit as <-.
  by rewrite elem_of_elements, elem_of_union, elem_of_list_to_set,
    elem_of_singleton.
Qed.

Lemma join_keeps_participants_witness :
  ∃ m m' l',
    lookup_invite (invite_code bob) open_world = Some m ∧
    lookup_invite (invite_code bob) (join_meeting bob open_world).2 = Some m' ∧
    participants m' = Some l' ∧
    NoDup l' ∧
    email bob ∈ l' ∧
    ∀ l, participants m = Some l → ∀ x, x ∈ l' ↔ x ∈ l ∨ x = email bob.
Proof.
  apply (join_keeps_participants bob open_world (join_meeting bob open_world).2
           (join_response (new_meeting hour_request ticking_world))).
  - apply (bool_decide_unpack _). vm_compute. exact I.
  - apply run_Return. vm_compute. reflexivity.
Defined.

(** X6. Create, then join: in a reachable world, when a creation has
    answered, a join with the invite code it returned, made while the
    clock does not read past the expiry, answers with the very [id] the
    creation returned, and the new meeting then has the joiner as its one
    participant. *)
Theorem create_then_join (p : CreateMeetingRequest) (who : string)
    (w w1 : world) (r : gmap string json) :
  reachable w →
  create_meeting p w = (Return r, w1) →
  ¬ (time w + ttl_minutes p * 60000000 < time w1) →
  ∃ id code w2 m,
    r = {[ "id" := JStr id; "invite_code" := JStr code;
           "expires_at" := JIsoformat (time w + ttl_minutes p * 60000000) ]} ∧
    join_meeting {| email := who; invite_code := code |} w1
      = (Return {[ "ok" := JBool true; "meeting_id" := JStr id ]}, w2) ∧
    lookup_invite code w2 = Some m ∧
    participants m = Some [who].
Proof.
  intros Hw Hcreate Hfresh.
  apply create_meeting_Return in Hcreate as (Hexp & -> & ->).
  set (w1 := (create_meeting p w).2) in *.
  pose proof (reachable_store_ok _ Hw) as Hok.
  pose proof (new_meeting_found p w Hok Hexp) as Hhit. fold w1 in Hhit.
  set (code := ObjectId_str (oid_counter w)) in *.
  set (q := {| email := who; invite_code := code |}).
  assert (join_meeting q w1
          = (Return (join_response (new_meeting p w)),
             with_db (alter (update_first [IdIs (_id (new_meeting p w))]
                    (join_update who [] (time (past_expiry_test (new_meeting p w) w1))))
                    "meeting")
               (tick (past_expiry_test (new_meeting p w) w1)))) as Hrun.
  { apply (join_meeting_proceeds q w1 (new_meeting p w) []); [done..| |done].
    right. exists (time w + timedelta_minutes (ttl_minutes p)). split; [done|].
    exact Hfresh. }
  assert (unique_ids w1) as Hids.
  { pose proof (store_ok_create p w Hok) as [_ H _]. exact H. }
  destruct (lookup_invite_join q w1 _ _ Hids Hrun)
    as (m & l & t & Hhit1 & Hit & Hhit2 & _).
  simpl in Hhit1. rewrite Hhit in Hhit1. injection Hhit1 as <-.
  assert (iterate (default (VList []) (fields (new_meeting p w) !! "participants"))
          = Some []) as Hnew by reflexivity.
  rewrite Hnew in Hit. injection Hit as <-.
  eexists (ObjectId_str (oid_counter w + 1)), code, _, _.
  split; [done|]. split; [exact Hrun|].
  split; [exact Hhit2|].
  rewrite joined_participants. f_equal.
  change (list_to_set [] : gset string) with (∅ : gset string).
  by rewrite (left_id_L ∅ (∪)), elements_singleton.
Qed.

Lemma create_then_join_witness :
  ∃ id code w2 m,
    create_response hour_request ticking_world
      = {[ "id" := JStr id; "invite_code" := JStr code;
           "expires_at" :=
             JIsoformat (time ticking_world
                         + ttl_minutes hour_request * 60000000) ]} ∧
    join_meeting {| email := "b@x.com"; invite_code := code |} open_world
      = (Return {[ "ok" := JBool true; "meeting_id" := JStr id ]}, w2) ∧
    lookup_invite code w2 = Some m ∧
    participants m = Some ["b@x.com"].
Proof.
  apply (create_then_join hour_request "b@x.com" ticking_world open_world
           (create_response hour_request ticking_world)).
  - apply reachable_start. reflexivity.
  - apply create_meeting_run. vm_compute. reflexivity.
  - vm_compute. discriminate.
Defined.

(** X14. At a reading of the clock that a [datetime] can hold,
    [create_meeting] answers exactly when the expiry can be represented;
    when it cannot, the handler raises [OverflowError] once the clock has
    been read, before an identifier is drawn and before any write. *)
Theorem create_meeting_answers_iff_representable (p : CreateMeetingRequest)
    (w : world) :
  (datetime_min ≤ time w ≤ datetime_max)%Z →
  (expiry_representable p w ∧
   create_meeting p w = (Return (create_response p w), (create_meeting p w).2) ∧
   meetings (create_meeting p w).2 = (meetings w ++ [new_meeting p w])%list) ∨
  (¬ expiry_representable p w ∧
   create_meeting p w = (Raise OverflowError, tick w)).
Proof.
  intros Hnow. destruct (expiry_computable p w) eqn:Hexp.
  - left. split; [|split].
    + unfold expiry_computable in Hexp.
      apply andb_true_iff in Hexp as [Hd Hs]. split.
      * by apply bool_decide_eq_true in Hd.
      * apply negb_true_iff in Hs. by apply datetime_overflows_spec in Hs.
    + by rewrite create_meeting_run.
    + by apply meetings_create.
  - right. split; [|by apply create_meeting_overflow].
    intros Hrep%representable_computable. congruence.
Qed.

Lemma create_meeting_answers_iff_representable_witness :
  create_meeting endless_request frozen_world
  = (Raise OverflowError, tick frozen_world).
Proof.
  destruct (create_meeting_answers_iff_representable endless_request
              frozen_world) as [[[_ [_ Hle]] _] | [_ Hrun]].
  - split; vm_compute; discriminate.
  - exfalso. vm_compute in Hle. exact (Hle eq_refl).
  - exact Hrun.
Defined.

(** ** Beyond the claims: what the handlers alone can bring about *)

Lemma reachable_dated w : reachable w → Forall meeting_dated (meetings w).
Proof.
  induction 1 as [w Hdb | w r Hw IH].
  - unfold meetings, collection. rewrite Hdb, lookup_empty. constructor.
  - pose proof (reachable_store_ok _ Hw) as [_ Hids _].
    destruct r as [p|p|code]; unfold handle.
    + destruct (expiry_computable p w) eqn:Hexp;
        [|by rewrite meetings_create_overflow].
      rewrite meetings_create by done. apply Forall_app. split; [done|].
      apply Forall_singleton. by eexists.
    + destruct (join_meeting p w) as [[r|e] w'] eqn:Hrun; simpl.
      * apply meetings_join in Hrun
          as (m & l & l1 & l2 & _ & _ & Heq & Heq' & _ & _); [|done].
        rewrite Heq'. rewrite Heq in IH.
        apply Forall_app in IH as [H1 H2]. inversion H2 as [|? ? [e He] H3]; subst.
        apply Forall_app. split; [done|]. constructor; [|done].
        exists e. by rewrite joined_other_fields.
      * apply join_meeting_Raise in Hrun as [Hdb _].
        unfold meetings. by rewrite (collection_same_db _ _ _ Hdb).
    + destruct (end_meeting code w) as [[r|e] w'] eqn:Hrun; simpl.
      * apply meetings_end in Hrun as (m & l1 & l2 & _ & Heq & Heq' & _);
          [|done].
        rewrite Heq'. rewrite Heq in IH.
        apply Forall_app in IH as [H1 H2]. inversion H2; subst.
        apply Forall_app. by split.
      * by apply end_meeting_Raise in Hrun as [-> _].
Qed.

(** X7. On the records the handlers themselves have written, a join
    fails in two ways only: 404 when no meeting carries the code, 410 when
    the meeting has expired.  The 400 "Meeting not active" is never
    raised there, since an ended meeting is deleted, and no [TypeError]
    is; and a join on a meeting that has not expired answers. *)
Theorem reachable_join_outcomes (p : JoinMeetingRequest) (w : world) :
  reachable w →
  (∀ e w', join_meeting p w = (Raise e, w') →
     (e = HTTPException 404 "Invite not found" ∧
      lookup_invite (invite_code p) w = None) ∨
     (e = HTTPException 410 "Invite expired" ∧
      ∃ m, lookup_invite (invite_code p) w = Some m ∧ expired m (time w))) ∧
  (∀ m, lookup_invite (invite_code p) w = Some m → ¬ expired m (time w) →
     ∃ r w', join_meeting p w = (Return r, w')).
Proof.
  intros Hw.
  pose proof (reachable_store_ok _ Hw) as [Hall _ _].
  pose proof (reachable_dated _ Hw) as Hdated.
  rewrite Forall_forall in Hall, Hdated.
  assert (∀ m, lookup_invite (invite_code p) w = Some m → ¬ expired m (time w) →
            ∃ r w', join_meeting p w = (Return r, w')) as Hgo.
  { intros m Hhit Hnot. pose proof (lookup_invite_elem _ _ _ Hhit) as Hin.
    destruct (Hall m Hin) as [_ _ Hact (l & Hl & _)].
    destruct (Hdated m Hin) as [e He].
    eexists _, _. apply (join_meeting_proceeds p w m l); [done..| |].
    - right. exists e. split; [done|]. intros Hlt. apply Hnot. by exists e.
    - by rewrite Hl. }
  split; [|exact Hgo].
  intros e w' Hrun.
  destruct (lookup_invite (invite_code p) w) as [m|] eqn:Hhit.
  - right. pose proof (lookup_invite_elem _ _ _ Hhit) as Hin.
    destruct (Hall m Hin) as [_ _ Hact _].
    destruct (Hdated m Hin) as [e0 He0].
    destruct (decide (e0 < time w)) as [Hlt|Hge].
    + assert (expired m (time w)) as Hexp by (by exists e0).
      rewrite (join_meeting_expired p w m) in Hrun by done.
      injection Hrun as <- _. split; [done|]. by exists m.
    + destruct (Hgo m eq_refl) as (r & w'' & Hrun').
      { intros (e1 & He1 & Hlt). rewrite He0 in He1. injection He1 as <-.
        contradiction. }
      rewrite Hrun in Hrun'. discriminate.
  - left. rewrite join_meeting_not_found in Hrun by done.
    by injection Hrun as <- _.
Qed.

Lemma reachable_join_outcomes_witness :
  ∃ r w', join_meeting bob open_world = (Return r, w').
Proof.
  apply (proj2 (reachable_join_outcomes bob open_world reachable_open_world)
           (new_meeting hour_request ticking_world)).
  - vm_compute. reflexivity.
  - intros (e & He & Hlt). vm_compute in He. injection He as <-.
    vm_compute in Hlt. discriminate.
Defined.

(** X8. With an [ObjectId] that never gives the same identifier twice,
    as the generator of this model does, in every reachable world no two
    records share a key and no two share an invite code: an invite code
    designates at most one meeting. *)
Theorem reachable_codes_and_keys_unique (w : world) (i j : nat)
    (d1 d2 : document) :
  reachable w →
  meetings w !! i = Some d1 → meetings w !! j = Some d2 →
  (_id d1 = _id d2 → i = j) ∧
  (fields d1 !! "invite_code" = fields d2 !! "invite_code" → i = j).
Proof.
  intros Hw H1 H2. apply reachable_store_ok in Hw as [_ Hids Hcodes].
  split; intros Heq.
  - apply (NoDup_lookup _ i j (_id d1) Hids).
    + by rewrite list_lookup_fmap, H1.
    + by rewrite list_lookup_fmap, H2, Heq.
  - apply (NoDup_lookup _ i j (fields d1 !! "invite_code") Hcodes).
    + by rewrite list_lookup_fmap, H1.
    + by rewrite list_lookup_fmap, H2, Heq.
Qed.

Lemma reachable_codes_and_keys_unique_witness :
  ∃ d1 d2, meetings two_meetings_world = [d1; d2] ∧
           _id d1 ≠ _id d2 ∧
           fields d1 !! "invite_code" ≠ fields d2 !! "invite_code".
Proof.
  pose (d1 := new_meeting hour_request ticking_world).
  pose (d2 := new_meeting instant_request open_world).
  destruct (reachable_codes_and_keys_unique two_meetings_world 0 1 d1 d2)
    as [Hkey Hcode].
  - apply (reachable_handle_all
             [CreateMeeting hour_request; CreateMeeting instant_request]).
    apply reachable_start. reflexivity.
  - vm_compute. reflexivity.
  - vm_compute. reflexivity.
  - exists d1, d2. split; [vm_compute; reflexivity|].
    split; intros Heq; [specialize (Hkey Heq)|specialize (Hcode Heq)];
      discriminate.
Defined.

(** X9. On a record whose [expires_at] is truthy but not a [datetime],
    the comparison with the clock fails: a join on such an active meeting
    raises [TypeError], after one reading of the clock and before any
    write.  So does, once the expiry test is passed, a [participants]
    field that cannot be iterated over. *)
Theorem join_type_errors (p : JoinMeetingRequest) (w : world) (m : document) :
  lookup_invite (invite_code p) w = Some m → is_active m →
  (∀ v, fields m !! "expires_at" = Some v → truthy v = true →
        (∀ e, v ≠ VDatetime e) →
        join_meeting p w = (Raise TypeError, tick w)) ∧
  (¬ expired m (time w) →
   truthy (dict_get m "expires_at") = false ∨ meeting_dated m →
   iterate (default (VList []) (fields m !! "participants")) = None →
   join_meeting p w = (Raise TypeError, past_expiry_test m w)).
Proof.
  unfold lookup_invite, meetings, by_code, is_active, past_expiry_test, time.
  intros Hhit Hact. split.
  - intros v Hv Ht Hne. unfold join_meeting. run. rewrite find_one, Hhit. simpl.
    rewrite bool_decide_false by (by intros []).
    unfold dict_get. rewrite Hv. simpl. rewrite Ht.
    destruct v; try done. by destruct (Hne t).
  - intros Hnot Hexp Hit. unfold join_meeting. run. rewrite find_one, Hhit. simpl.
    rewrite bool_decide_false by (by intros []).
    destruct Hexp as [Hf | [e He]].
    + rewrite Hf. simpl. by rewrite Hit.
    + unfold dict_get. rewrite He. simpl.
      rewrite bool_decide_false; [by rewrite Hit|].
      intros Hlt. apply Hnot. by exists e.
Qed.

Lemma join_type_errors_witness :
  join_meeting {| email := "b@x.com"; invite_code := "misdated-code" |}
    misdated_world
  = (Raise TypeError, tick misdated_world).
Proof.
  apply (proj1 (join_type_errors
                  {| email := "b@x.com"; invite_code := "misdated-code" |}
                  misdated_world misdated_doc
                  ltac:(vm_compute; reflexivity) ltac:(vm_compute; reflexivity))
           (VInt 5)).
  - vm_compute. reflexivity.
  - reflexivity.
  - discriminate.
Defined.

(** ** Beyond the claims: the diagnostic endpoint *)

Lemma first_chars_length n s :
  code_points (first_chars n s) = (n `min` code_points s)%nat.
Proof.
  revert n. induction s as [|c s IH]; intros n; simpl.
  - by rewrite Nat.min_0_r.
  - destruct (is_continuation c) eqn:Hc; simpl; rewrite ?Hc.
    + apply IH.
    + destruct n as [|n]; [done|]. simpl. rewrite Hc. by rewrite IH.
Qed.

Lemma first_chars_prefix n s :
  ∃ rest, s = String.append (first_chars n s) rest ∧ starts_char rest = true.
Proof.
  revert n. induction s as [|c s IH]; intros n.
  - by exists EmptyString.
  - simpl. destruct (is_continuation c) eqn:Hc.
    + destruct (IH n) as (rest & Hrest & Hstart). exists rest.
      split; [|done].
      change (String c s = String c (String.append (first_chars n s) rest)).
      by f_equal.
    + destruct n as [|n].
      * exists (String c s). split; [done|]. simpl. by rewrite Hc.
      * destruct (IH n) as (rest & Hrest & Hstart). exists rest.
        split; [|done].
        change (String c s = String c (String.append (first_chars n s) rest)).
        by f_equal.
Qed.

(** X10. The diagnostic response lists at most ten collections: the
    first ten the database names, in its order, when the listing
    succeeds, and none when there is no handle or a call on it raised. *)
Theorem test_database_collections (db : option database_handle) :
  ∃ l,
    test_database db !! "collections" = Some (DNames l) ∧
    (length l ≤ 10)%nat ∧
    (∀ h name names,
       db = Some h → name_attr h = Got name →
       list_collection_names h = Got names →
       l = take 10 names ∧ l `prefix_of` names ∧
       ((length names ≤ 10)%nat → l = names)) ∧
    (db = None ∨
     (∃ h message, db = Some h ∧
        (name_attr h = Threw message ∨ list_collection_names h = Threw message)) →
     l = []).
Proof.
  destruct db as [[[name|message] [names|message']]|]; simpl.
  - exists (take 10 names). split; [done|]. split; [by rewrite length_take; lia|].
    split.
    + intros h name' names' [= <-] _ [= <-]. simpl.
      split; [done|]. split; [apply prefix_take|]. intros Hle. by apply take_ge.
    + intros [|(h & msg & [= <-] & [|])]; done.
  - exists []. split; [done|]. split; [simpl; lia|]. split; [|done].
    by intros h name' names' [= <-] _ [=].
  - exists []. split; [done|]. split; [simpl; lia|]. split; [|done].
    by intros h name' names' [= <-] [=].
  - exists []. split; [done|]. split; [simpl; lia|]. split; [|done].
    by intros h name' names' [= <-] [=].
  - exists []. split; [done|]. split; [simpl; lia|]. split; [|done].
    by intros h name' names' [=].
Qed.

Lemma test_database_collections_witness :
  ∃ l,
    test_database
      (Some {| name_attr := Got None;
               list_collection_names := Got ["meeting"; "user"] |})
      !! "collections" = Some (DNames l) ∧
    l = ["meeting"; "user"].
Proof.
  destruct (test_database_collections
              (Some {| name_attr := Got None;
                       list_collection_names := Got ["meeting"; "user"] |}))
    as (l & Hl & _ & Hgot & _).
  exists l. split; [exact Hl|].
  apply (Hgot _ None ["meeting"; "user"] eq_refl eq_refl eq_refl).
  simpl. lia.
Defined.

(** X11. The two status fields tell how far the probe came:
    [connection_status] is "Connected" exactly when there is a handle
    whose name could be read, and [database] is "Connected & Working"
    exactly when, besides, the collections could be listed. *)
Theorem test_database_status (db : option database_handle) :
  (test_database db !! "connection_status" = Some (DText "Connected") ↔
   ∃ h name, db = Some h ∧ name_attr h = Got name) ∧
  (test_database db !! "database" = Some (DText "✅ Connected & Working") ↔
   ∃ h name names, db = Some h ∧ name_attr h = Got name ∧
                   list_collection_names h = Got names).
Proof.
  destruct db as [[[name|message] [names|message']]|]; simpl; split; split;
    try (by intros [=]).
  all: try (by intros (h & ? & [= <-] & [=])).
  all: try (by intros (h & ? & ? & [= <-] & [=] & _)).
  all: try (by intros (h & ? & ? & [= <-] & _ & [=])).
  all: try (by intros (h & ? & ? & [=] & _)).
  all: try (by intros (h & ? & [=] & _)).
  all: try (intros _; by eexists _, _).
  all: try (intros _; by eexists _, _, _).
Qed.

(** X12. When a call on the handle raises, the [database] field carries
    the first fifty characters of the message, fifty code points and not
    fifty bytes, no character cut, and the fields written
    before the exception keep what was written: after a listing that
    failed the response still says "Connected" and gives the name; after a
    name that could not be read it says "Not Connected" and gives no name,
    yet [database_url] already reads "Set". *)
Theorem test_database_errors (h : database_handle) (message : string) :
  let r := test_database (Some h) in
  let shown := first_chars 50 message in
  code_points shown = (50 `min` code_points message)%nat ∧
  (∃ rest, message = String.append shown rest ∧ starts_char rest = true) ∧
  (∀ name, name_attr h = Got name →
     list_collection_names h = Threw message →
     r !! "database" = Some (DText ("⚠️ Connected but Error: " ++ shown)) ∧
     r !! "connection_status" = Some (DText "Connected") ∧
     r !! "database_name" = Some (DText (default "unknown" name)) ∧
     r !! "database_url" = Some (DText "✅ Set") ∧
     r !! "collections" = Some (DNames [])) ∧
  (name_attr h = Threw message →
     r !! "database" = Some (DText ("❌ Error: " ++ shown)) ∧
     r !! "connection_status" = Some (DText "Not Connected") ∧
     r !! "database_name" = Some DNull ∧
     r !! "database_url" = Some (DText "✅ Set") ∧
     r !! "collections" = Some (DNames [])).
Proof.
  intros r shown. split; [apply first_chars_length|].
  split; [apply first_chars_prefix|].
  unfold r, test_database. split.
  - intros name -> ->. by repeat split.
  - intros ->. by repeat split.
Qed.

Lemma test_database_errors_witness :
  test_database (Some refusing_handle) !! "database"
  = Some (DText ("⚠️ Connected but Error: " ++
                 "connexion refusée par le serveur de données à l’ad")) ∧
  test_database (Some refusing_handle) !! "connection_status"
  = Some (DText "Connected") ∧
  code_points (first_chars 50 refused) = 50%nat ∧
  String.length (first_chars 50 refused) = 55%nat.
Proof.
  destruct (test_database_errors refusing_handle refused)
    as (Hlen & _ & Hlist & _).
  destruct (Hlist (Some "fortimeet") eq_refl eq_refl) as (Hd & Hc & _).
  split; [exact Hd|]. split; [exact Hc|]. split; [exact Hlen|].
  vm_compute. reflexivity.
Defined.

(** X13. Whatever the handle does, the endpoint answers, and its response
    has the same six fields, [backend] reading "Running". *)
Theorem test_database_shape (db : option database_handle) :
  dom (test_database db)
  = ({[ "backend"; "database"; "database_url"; "database_name";
        "connection_status"; "collections" ]} : gset string) ∧
  test_database db !! "backend" = Some (DText "✅ Running").
Proof.
  destruct db as [[[name|message] [names|message']]|]; split; reflexivity.
Qed.
